(** * LinkedBST: a link-based binary search tree (linkedbst.py)

    A shallow embedding of the class [LinkedBST] and a verification of
    its traversal, search, mutation and balance operations.

    Conventions of the embedding.
    - Items are Python integers, modelled as [Z].
    - A reference to a [BSTNode] that may be [None] is a [tree]:
      [Empty] is [None], [Node l d r] is a node object with fields
      [left], [data], [right].  No operation of the class creates sharing
      between nodes, so in-place updates of a node are rendered as the
      rebuilt subtree.
    - A [LinkedBST] object is the record of its two fields, [_root] and
      the inherited counter [_size].
    - A Python call either returns or raises: [result].
    - [math.log] is rendered by the real natural logarithm [ln]; the
      rounding of the double-precision result is not represented. *)

From Stdlib Require Import ZArith List Bool Lia Arith Sorted Permutation.
From Stdlib Require Import Reals Lra.
From Stdlib Require String Ascii DecimalString.
From Equations Require Import Equations.
Import ListNotations.

Open Scope Z_scope.

(** ** Exceptions *)

Inductive exn : Type :=
| KeyError
| AttributeError.

Inductive result (A : Type) : Type :=
| Ok (a : A)
| Raise (e : exn).

Arguments Ok {A} a.
Arguments Raise {A} e.

Definition bind {A B : Type} (m : result A) (k : A -> result B) : result B :=
  match m with
  | Ok a => k a
  | Raise e => Raise e
  end.

Notation "x <- m ;; k" := (bind m (fun x => k))
  (at level 61, m at next level, right associativity).

(** ** Nodes and trees *)

(** Modelled from the spec: the class [BSTNode] of bstnode.py, "an ordered
    pair of optional child ownerships plus one stored value".  [Empty] is
    the absent node. *)
Inductive tree : Type :=
| Empty
| Node (left : tree) (data : Z) (right : tree).

(** [BSTNode(item)]: a fresh node without children. *)
Definition BSTNode (item : Z) : tree := Node Empty item Empty.

(** Truth value of a node reference, [if node:]. *)
Definition truthy (node : tree) : bool :=
  match node with
  | Empty => false
  | Node _ _ _ => true
  end.

Record LinkedBST : Type := mkBST {
  _root : tree;
  _size : Z
}.

(** Modelled from the spec: [AbstractCollection.isEmpty], the "emptiness
    predicate" over the item count. *)
Definition isEmpty (self : LinkedBST) : bool := _size self =? 0.

(** Modelled from the spec: [AbstractCollection.__len__], the "item-count
    query". *)
Definition len (self : LinkedBST) : Z := _size self.

(** [LinkedBST()] with no source collection. *)
Definition empty_bst : LinkedBST := mkBST Empty 0.

(** Number of node objects reachable from a reference. *)
Fixpoint count (node : tree) : nat :=
  match node with
  | Empty => O
  | Node l _ r => S (count l + count r)
  end.

(** ** Traversals *)

(** The helper [recurse] of [preorder], [inorder], [postorder]: the
    contents of [lyst] appended by one call. *)
Fixpoint preorder_recurse (node : tree) : list Z :=
  match node with
  | Empty => []
  | Node l d r => d :: preorder_recurse l ++ preorder_recurse r
  end.

Fixpoint inorder_recurse (node : tree) : list Z :=
  match node with
  | Empty => []
  | Node l d r => inorder_recurse l ++ d :: inorder_recurse r
  end.

Fixpoint postorder_recurse (node : tree) : list Z :=
  match node with
  | Empty => []
  | Node l d r => postorder_recurse l ++ postorder_recurse r ++ [d]
  end.

Definition preorder (self : LinkedBST) : list Z := preorder_recurse (_root self).
Definition inorder (self : LinkedBST) : list Z := inorder_recurse (_root self).
Definition postorder (self : LinkedBST) : list Z := postorder_recurse (_root self).

(** Modelled from the spec: [LinkedStack] of linkedstack.py, the
    "last-in-first-out auxiliary stack": a list with its top at the head. *)
Definition LinkedStack : Type := list tree.

Definition push (node : tree) (stack : LinkedStack) : LinkedStack :=
  node :: stack.

(** [if node: stack.push(node)] *)
Definition push_if (node : tree) (stack : LinkedStack) : LinkedStack :=
  if truthy node then push node stack else stack.

(** Number of nodes still to be visited from a stack: the quantity that
    decreases at every iteration of the stack loops. *)
Definition stack_weight (stack : LinkedStack) : nat :=
  list_sum (map count stack).

(** The [while not stack.isEmpty()] loop of [__iter__]: the values
    yielded from a given stack on.  Reading [.data] of [None] raises. *)
Equations? iter_loop (stack : LinkedStack) : result (list Z)
  by wf (stack_weight stack) lt :=
  iter_loop [] := Ok [];
  iter_loop (Empty :: _) := Raise AttributeError;
  iter_loop (Node l d r :: stack) :=
    rest <- iter_loop (push_if l (push_if r stack)) ;; Ok (d :: rest).
Proof. unfold push_if, push, stack_weight. destruct l, r; simpl; lia. Qed.

(** [__iter__]: the sequence of values the generator yields. *)
Definition iter (self : LinkedBST) : result (list Z) :=
  if negb (isEmpty self) then iter_loop (push (_root self) [])
  else Ok [].

(** [height]: the helper [height1].  An absent node and a node without
    children both have height 0. *)
Fixpoint height1 (pos : tree) : nat :=
  match pos with
  | Empty => O
  | Node l _ r =>
      if negb (truthy l) && negb (truthy r) then O
      else S (Nat.max (height1 l) (height1 r))
  end.

Definition height (self : LinkedBST) : nat := height1 (_root self).

(** The helper [print_level] of [levelorder]; [lst] is the list the
    values are appended to ([lst1] and the captured [lst] are one
    object), returned as updated. *)
Fixpoint print_level (root : tree) (level : nat) (lst : list Z) : list Z :=
  match root with
  | Empty => lst
  | Node l d r =>
      match level with
      | O => lst
      | S O => lst ++ [d]
      | S (S _ as level') => print_level r level' (print_level l level' lst)
      end
  end.

(** [levelorder]: [for i in range(height1): print_level(root, i + 1, lst)]. *)
Definition levelorder (self : LinkedBST) : list Z :=
  fold_left (fun lst i => print_level (_root self) (i + 1)%nat lst)
            (seq 0 (height self)) [].

(** ** Search *)

(** The helper [recurse] of [find]. *)
Fixpoint find_recurse (item : Z) (node : tree) : option Z :=
  match node with
  | Empty => None
  | Node l d r =>
      if item =? d then Some d
      else if item <? d then find_recurse item l
      else find_recurse item r
  end.

Definition find (self : LinkedBST) (item : Z) : option Z :=
  find_recurse item (_root self).

(** [__contains__]: [self.find(item) is not None]. *)
Definition contains (self : LinkedBST) (item : Z) : bool :=
  match find self item with
  | Some _ => true
  | None => false
  end.

(** ** Mutators *)

Definition clear (self : LinkedBST) : LinkedBST := mkBST Empty 0.

(** The helper [recurse] of [add], called on a node object; the result
    is that node after the insertion below it. *)
Fixpoint add_recurse (item : Z) (node : tree) : result tree :=
  match node with
  | Empty => Raise AttributeError
  | Node l d r =>
      if item <? d then
        match l with
        | Empty => Ok (Node (BSTNode item) d r)
        | Node _ _ _ => l' <- add_recurse item l ;; Ok (Node l' d r)
        end
      else
        match r with
        | Empty => Ok (Node l d (BSTNode item))
        | Node _ _ _ => r' <- add_recurse item r ;; Ok (Node l d r')
        end
  end.

Definition add (self : LinkedBST) (item : Z) : result LinkedBST :=
  if isEmpty self then Ok (mkBST (BSTNode item) (_size self + 1))
  else root' <- add_recurse item (_root self) ;;
       Ok (mkBST root' (_size self + 1)).

(** Modelled from the spec: the bulk constructor of [AbstractCollection],
    "items added one-by-one, in the given order, via add". *)
Fixpoint add_all (self : LinkedBST) (items : list Z) : result LinkedBST :=
  match items with
  | [] => Ok self
  | item :: rest => self' <- add self item ;; add_all self' rest
  end.

(** [LinkedBST(sourceCollection)] *)
Definition init (sourceCollection : list Z) : result LinkedBST :=
  add_all empty_bst sourceCollection.

(** The [while current_node.right is not None] loop of
    [lift_max_in_left_subtree_to_top], started at the node with fields
    [l], [d], [r]: the maximum datum below, and that node after the
    node holding the maximum has been replaced by its left child. *)
Fixpoint detach_max (l : tree) (d : Z) (r : tree) : Z * tree :=
  match r with
  | Empty => (d, l)
  | Node rl rd rr =>
      let '(m, r') := detach_max rl rd rr in (m, Node l d r')
  end.

(** What takes the place of the located node: cases 1, 2 and 3 of
    [remove]. *)
Definition remove_node (current_node : tree) : tree :=
  match current_node with
  | Empty => Empty
  | Node l d r =>
      if truthy l && truthy r then
        match l with
        | Empty => current_node
        | Node ll ld lr =>
            let '(m, l') := detach_max ll ld lr in Node l' m r
        end
      else
        match l with
        | Empty => r
        | Node _ _ _ => l
        end
  end.

(** The [while current_node is not None] loop of [remove] together with
    the relinking through [parent] and [direction]: [item_removed] and
    what hangs from the parent's link afterwards, or [None] when the
    loop runs off the tree. *)
Fixpoint remove_loop (item : Z) (current_node : tree) : option (Z * tree) :=
  match current_node with
  | Empty => None
  | Node l d r =>
      if d =? item then Some (d, remove_node current_node)
      else if d >? item then
        match remove_loop item l with
        | Some (x, l') => Some (x, Node l' d r)
        | None => None
        end
      else
        match remove_loop item r with
        | Some (x, r') => Some (x, Node l d r')
        | None => None
        end
  end.

(** [remove]: how the call ends (a returned value, Python's [None]
    rendered by [None], or the exception raised) and the object as the
    call leaves it. *)
Definition remove (self : LinkedBST) (item : Z)
  : result (option Z) * LinkedBST :=
  if negb (contains self item) then (Raise KeyError, self)
  else if isEmpty self then (Ok None, self)
  else
    match remove_loop item (_root self) with
    | None => (Ok None, self)
    | Some (item_removed, pre_root_left) =>
        let size' := _size self - 1 in
        (Ok (Some item_removed),
         mkBST (if size' =? 0 then Empty else pre_root_left) size')
    end.

(** The loop of [replace]: the old datum and the tree afterwards. *)
Fixpoint replace_loop (item new_item : Z) (probe : tree) : option Z * tree :=
  match probe with
  | Empty => (None, Empty)
  | Node l d r =>
      if d =? item then (Some d, Node l new_item r)
      else if d >? item then
        let '(old, l') := replace_loop item new_item l in (old, Node l' d r)
      else
        let '(old, r') := replace_loop item new_item r in (old, Node l d r')
  end.

Definition replace (self : LinkedBST) (item new_item : Z)
  : option Z * LinkedBST :=
  let '(old, root') := replace_loop item new_item (_root self) in
  (old, mkBST root' (_size self)).

(** ** Balance *)

(** The helper of [is_balanced]: one increment of [cnt] per item of the
    inorder traversal. *)
Definition helper (self : LinkedBST) : Z :=
  fold_left (fun cnt _ => cnt + 1) (inorder self) 0.

(** [is_balanced]: [self.height() < 2 * log(2 * (number + 1)) - 1],
    where [log] is [math.log] with one argument, the natural logarithm.
    The comparison of an [int] with a [float] is exact. *)
Definition is_balanced (self : LinkedBST) : bool :=
  let number := helper self in
  if Rlt_dec (INR (height self)) (2 * ln (IZR (2 * (number + 1))) - 1)%R
  then true else false.

(** [range_find]: [None] is the absent result. *)
Definition range_find (self : LinkedBST) (low high : Z) : option (list Z) :=
  let ans := filter (fun number => (low <=? number) && (number <=? high))
                    (inorder self) in
  if (0 <? Z.of_nat (length ans)) then Some ans else None.

(** [mid = len(elems) // 2] *)
Definition mid_of (elems : list Z) : nat := (length elems / 2)%nat.

(** The helper [rb1] of [rebalance]. *)
Equations? rb1 (elems : list Z) : tree by wf (length elems) lt :=
  rb1 [] := Empty;
  rb1 (x :: xs) :=
    Node (rb1 (firstn (mid_of (x :: xs)) (x :: xs)))
         (nth (mid_of (x :: xs)) (x :: xs) 0)
         (rb1 (skipn (mid_of (x :: xs) + 1) (x :: xs))).
Proof.
  all: assert (Hlt : (mid_of (x :: xs) < length (x :: xs))%nat)
    by (unfold mid_of; apply Nat.div_lt; simpl; lia).
  - change (length (firstn (mid_of (x :: xs)) (x :: xs)) < length (x :: xs))%nat.
    rewrite length_firstn. lia.
  - change (length (skipn (mid_of (x :: xs) + 1) (x :: xs)) < length (x :: xs))%nat.
    rewrite length_skipn. lia.
Qed.

(** [rebalance]: [self._root = rb1(list(elems))]; the counter is left as
    it is. *)
Definition rebalance (self : LinkedBST) : LinkedBST :=
  let elems := inorder self in
  mkBST (rb1 elems) (_size self).

(** The boundary value [10**32] of [successor]. *)
Definition sentinel : Z := 10 ^ 32.

(** The [while not stack.isEmpty()] loop of [successor]: the final
    value of [min_num]. *)
Equations? successor_loop (item min_num : Z) (stack : LinkedStack) : result Z
  by wf (stack_weight stack) lt :=
  successor_loop item min_num [] := Ok min_num;
  successor_loop item min_num (Empty :: _) := Raise AttributeError;
  successor_loop item min_num (Node l d r :: stack) :=
    successor_loop item
      (if (item <? d) && (d <=? min_num) then d else min_num)
      (push_if l (push_if r stack)).
Proof. unfold push_if, push, stack_weight. destruct l, r; simpl; lia. Qed.

(** [successor]: [min_num] unless it still equals the boundary value. *)
Definition successor (self : LinkedBST) (item : Z) : result (option Z) :=
  min_num <- (if negb (isEmpty self)
              then successor_loop item sentinel (push (_root self) [])
              else Ok sentinel) ;;
  Ok (if negb (min_num =? sentinel) then Some min_num else None).

(** ** Specification vocabulary *)

(** The class invariant tying the inherited counter to the nodes. *)
Definition consistent (self : LinkedBST) : Prop :=
  _size self = Z.of_nat (count (_root self)).

(** The ordering invariant: left strictly less, right greater or equal. *)
Fixpoint bst (node : tree) : Prop :=
  match node with
  | Empty => True
  | Node l d r =>
      bst l /\ bst r /\
      Forall (fun x => x < d) (inorder_recurse l) /\
      Forall (fun x => d <= x) (inorder_recurse r)
  end.

(** The values stored at a given depth, left to right. *)
Fixpoint at_depth (node : tree) (depth : nat) : list Z :=
  match node with
  | Empty => []
  | Node l d r =>
      match depth with
      | O => [d]
      | S depth' => at_depth l depth' ++ at_depth r depth'
      end
  end.

(** The breadth-first sequence of all stored values: depth 0 first, down
    to the deepest level. *)
Definition breadth_first (node : tree) : list Z :=
  concat (map (at_depth node) (seq 0 (S (height1 node)))).

(** Base-2 logarithm. *)
Definition log2 (x : R) : R := (ln x / ln 2)%R.

(** The balance test with the base-2 logarithm. *)
Definition balanced_log2 (self : LinkedBST) : Prop :=
  (INR (height self)
   < 2 * log2 (IZR (2 * (Z.of_nat (length (inorder self)) + 1))) - 1)%R.

(** [stack] holds node objects only. *)
Definition nodes_only (stack : LinkedStack) : Prop :=
  Forall (fun node => node <> Empty) stack.

(** One pass of the loop body of [successor] over [min_num]. *)
Definition successor_step (item min_num d : Z) : Z :=
  if (item <? d) && (d <=? min_num) then d else min_num.

(** [answer] is the smallest of [values] strictly greater than [item],
    or [None] when there is none. *)
Definition successor_of (values : list Z) (item : Z) (answer : option Z)
  : Prop :=
  match answer with
  | Some v => In v values /\ item < v
              /\ forall x, In x values -> item < x -> v <= x
  | None => forall x, In x values -> ~ item < x
  end.

(** The objects obtained from [LinkedBST()] by the mutators. *)
Inductive reachable : LinkedBST -> Prop :=
| reach_new : reachable empty_bst
| reach_add self item self' :
    reachable self -> add self item = Ok self' -> reachable self'
| reach_remove self item :
    reachable self -> reachable (snd (remove self item))
| reach_replace self item new_item :
    reachable self -> reachable (snd (replace self item new_item))
| reach_rebalance self :
    reachable self -> reachable (rebalance self)
| reach_clear self :
    reachable self -> reachable (clear self).

(** The tree the module itself builds, [LinkedBST([5, 4, 6, 3, 8, 19])]. *)
Definition scenario : LinkedBST :=
  mkBST (Node (Node (Node Empty 3 Empty) 4 Empty) 5
              (Node Empty 6 (Node Empty 8 (Node Empty 19 Empty)))) 6.

(** The tree built by inserting 1, 2, ..., 7 in this order. *)
Definition chain7 : LinkedBST :=
  mkBST (Node Empty 1 (Node Empty 2 (Node Empty 3 (Node Empty 4
          (Node Empty 5 (Node Empty 6 (Node Empty 7 Empty))))))) 7.

(** ** Predecessor *)

(** The [while not stack.isEmpty()] loop of [predecessor]: the final
    value of [max_num].  The left child is pushed first, so the right
    child is popped first. *)
Equations? predecessor_loop (item max_num : Z) (stack : LinkedStack)
  : result Z by wf (stack_weight stack) lt :=
  predecessor_loop item max_num [] := Ok max_num;
  predecessor_loop item max_num (Empty :: _) := Raise AttributeError;
  predecessor_loop item max_num (Node l d r :: stack) :=
    predecessor_loop item
      (if (max_num <=? d) && (d <? item) then d else max_num)
      (push_if r (push_if l stack)).
Proof. unfold push_if, push, stack_weight. destruct l, r; simpl; lia. Qed.

(** [predecessor]: [max_num] unless it still equals [-(10**32)]. *)
Definition predecessor (self : LinkedBST) (item : Z) : result (option Z) :=
  max_num <- (if negb (isEmpty self)
              then predecessor_loop item (- sentinel) (push (_root self) [])
              else Ok (- sentinel)) ;;
  Ok (if negb (max_num =? - sentinel) then Some max_num else None).

(** The order in which the loop of [predecessor] visits the nodes below a
    node: the node, its right subtree, its left subtree. *)
Fixpoint right_first (node : tree) : list Z :=
  match node with
  | Empty => []
  | Node l d r => d :: right_first r ++ right_first l
  end.

(** One pass of the loop body of [predecessor] over [max_num]. *)
Definition predecessor_step (item max_num d : Z) : Z :=
  if (max_num <=? d) && (d <? item) then d else max_num.

(** [answer] is the largest of [values] strictly less than [item], or
    [None] when there is none. *)
Definition predecessor_of (values : list Z) (item : Z) (answer : option Z)
  : Prop :=
  match answer with
  | Some v => In v values /\ v < item
              /\ forall x, In x values -> x < item -> x <= v
  | None => forall x, In x values -> ~ x < item
  end.

(** Non-decreasing sequences. *)
Definition ascending (values : list Z) : Prop := StronglySorted Z.le values.

(** ** String representation *)

Module Printing.
Import String.

(** The line terminator of [__str__], the character of code 10. *)
Definition newline : string := String (Ascii.ascii_of_nat 10) EmptyString.

(** [str(node.data)] for an integer: its decimal numeral, with a minus
    sign when negative. *)
Definition str (d : Z) : string :=
  DecimalString.NilZero.string_of_int (Z.to_int d).

(** [s * n], the string repeated. *)
Fixpoint times (s : string) (n : nat) : string :=
  match n with
  | O => EmptyString
  | S n' => append s (times s n')
  end.

(** The helper [recurse] of [__str__]. *)
Fixpoint recurse (node : tree) (level : nat) : string :=
  match node with
  | Empty => EmptyString
  | Node l d r =>
      append
        (append
           (append (append EmptyString (recurse r (S level)))
                   (times "| " level))
           (append (str d) newline))
        (recurse l (S level))
  end.

(** [__str__] *)
Definition to_str (self : LinkedBST) : string := recurse (_root self) 0.

(** The stored values with their depths below a node whose own depth is
    [level], right subtree first. *)
Fixpoint rows (node : tree) (level : nat) : list (nat * Z) :=
  match node with
  | Empty => []
  | Node l d r => rows r (S level) ++ (level, d) :: rows l (S level)
  end.

(** One printed line: the depth marks, the numeral, the terminator. *)
Definition render (row : nat * Z) : string :=
  append (times "| " (fst row)) (append (str (snd row)) newline).

(** The lines one after the other. *)
Definition join (lines : list string) : string :=
  fold_right append EmptyString lines.

End Printing.

(** * Verification *)

(** ** Splitting at the middle index *)

Lemma mid_of_lt (elems : list Z) :
  elems <> [] -> (mid_of elems < length elems)%nat.
Proof.
  unfold mid_of. intros Hne.
  assert (length elems <> O) by (destruct elems; simpl; congruence).
  apply Nat.div_lt; lia.
Qed.

(** ** Default iteration *)

Lemma nodes_only_push_if (node : tree) (stack : LinkedStack) :
  nodes_only stack -> nodes_only (push_if node stack).
Proof.
  intros Hs. unfold push_if, push. destruct node; simpl; [exact Hs|].
  constructor; [discriminate | exact Hs].
Qed.

Lemma preorder_push_if (node : tree) (stack : LinkedStack) :
  concat (map preorder_recurse (push_if node stack))
  = preorder_recurse node ++ concat (map preorder_recurse stack).
Proof. destruct node; reflexivity. Qed.

Lemma iter_loop_preorder (stack : LinkedStack) :
  nodes_only stack ->
  iter_loop stack = Ok (concat (map preorder_recurse stack)).
Proof.
  funelim (iter_loop stack); intros Hs.
  - reflexivity.
  - inversion Hs; subst. congruence.
  - inversion Hs as [|? ? _ Hs']; subst.
    rewrite H by (now do 2 apply nodes_only_push_if).
    simpl. rewrite !preorder_push_if, <- !app_assoc. reflexivity.
Qed.

Lemma consistent_empty_iff (self : LinkedBST) :
  consistent self -> (isEmpty self = true <-> _root self = Empty).
Proof.
  unfold consistent, isEmpty. intros Hc. rewrite Z.eqb_eq, Hc.
  destruct (_root self); simpl; split; intros; try reflexivity;
    try discriminate; lia.
Qed.

(** C7. On every tree object (counter in step with the nodes), the values
    yielded by default iteration, computed with the explicit stack, are
    exactly the sequence of the recursive [preorder], and the iteration
    does not raise. *)
Theorem iter_preorder (self : LinkedBST) :
  consistent self -> iter self = Ok (preorder self).
Proof.
  intros Hc. unfold iter, preorder, push.
  destruct (isEmpty self) eqn:He; simpl.
  - apply (consistent_empty_iff _ Hc) in He. now rewrite He.
  - rewrite iter_loop_preorder.
    + simpl. now rewrite app_nil_r.
    + constructor; [|constructor]. intros Hr.
      apply (consistent_empty_iff _ Hc) in Hr. congruence.
Qed.

(** ** Insertion and the ordering invariant *)

Lemma add_recurse_inorder (item : Z) (node node' : tree) :
  add_recurse item node = Ok node' ->
  Permutation (inorder_recurse node') (item :: inorder_recurse node).
Proof.
  revert node'. induction node as [|l IHl d r IHr]; intros node' Hadd;
    simpl in Hadd; [discriminate|].
  destruct (item <? d).
  - destruct l as [|ll ld lr].
    + injection Hadd as <-. reflexivity.
    + destruct (add_recurse item (Node ll ld lr)) as [l'|] eqn:Hl;
        simpl in Hadd; [|discriminate].
      injection Hadd as <-. simpl.
      specialize (IHl _ eq_refl). simpl in IHl.
      change (item :: (inorder_recurse ll ++ ld :: inorder_recurse lr)
                   ++ d :: inorder_recurse r)
        with ((item :: inorder_recurse ll ++ ld :: inorder_recurse lr)
                ++ d :: inorder_recurse r).
      now apply Permutation_app_tail.
  - destruct r as [|rl rd rr].
    + injection Hadd as <-. simpl.
      rewrite Permutation_middle. apply Permutation_app_head.
      apply perm_swap.
    + destruct (add_recurse item (Node rl rd rr)) as [r'|] eqn:Hr;
        simpl in Hadd; [|discriminate].
      injection Hadd as <-. simpl.
      specialize (IHr _ eq_refl).
      rewrite (Permutation_middle (inorder_recurse l) _ item).
      apply Permutation_app_head.
      rewrite IHr. apply perm_swap.
Qed.

Lemma add_recurse_returns (item : Z) (node : tree) :
  node <> Empty -> exists node', add_recurse item node = Ok node'.
Proof.
  induction node as [|l IHl d r IHr]; intros Hne; [congruence|].
  simpl. destruct (item <? d).
  - destruct l as [|ll ld lr]; [eauto|].
    destruct IHl as [l' ->]; [discriminate|]. simpl. eauto.
  - destruct r as [|rl rd rr]; [eauto|].
    destruct IHr as [r' ->]; [discriminate|]. simpl. eauto.
Qed.

Lemma add_recurse_bst (item : Z) (node node' : tree) :
  bst node -> add_recurse item node = Ok node' -> bst node'.
Proof.
  revert node'. induction node as [|l IHl d r IHr]; intros node' Hb Hadd;
    simpl in Hadd; [discriminate|].
  destruct Hb as (Hbl & Hbr & Hl & Hr).
  destruct (item <? d) eqn:Hlt.
  - apply Z.ltb_lt in Hlt. destruct l as [|ll ld lr].
    + injection Hadd as <-. simpl. repeat split; auto.
    + destruct (add_recurse item (Node ll ld lr)) as [l'|] eqn:Hadd';
        simpl in Hadd; [|discriminate].
      injection Hadd as <-. simpl. repeat split; auto.
      apply add_recurse_inorder in Hadd'.
      eapply Permutation_Forall; [symmetry; exact Hadd'|].
      constructor; assumption.
  - apply Z.ltb_ge in Hlt. destruct r as [|rl rd rr].
    + injection Hadd as <-. simpl. repeat split; auto.
    + destruct (add_recurse item (Node rl rd rr)) as [r'|] eqn:Hadd';
        simpl in Hadd; [|discriminate].
      injection Hadd as <-. simpl. repeat split; auto.
      apply add_recurse_inorder in Hadd'.
      eapply Permutation_Forall; [symmetry; exact Hadd'|].
      constructor; assumption.
Qed.

Lemma inorder_length (node : tree) :
  length (inorder_recurse node) = count node.
Proof.
  induction node as [|l IHl d r IHr]; simpl; [reflexivity|].
  rewrite length_app. simpl. lia.
Qed.

Lemma add_recurse_count (item : Z) (node node' : tree) :
  add_recurse item node = Ok node' -> count node' = S (count node).
Proof.
  intros Hadd. apply add_recurse_inorder, Permutation_length in Hadd.
  simpl in Hadd. now rewrite !inorder_length in Hadd.
Qed.

Lemma bst_sorted (node : tree) :
  bst node -> StronglySorted Z.le (inorder_recurse node).
Proof.
  induction node as [|l IHl d r IHr]; simpl; [constructor|].
  intros (Hbl & Hbr & Hl & Hr).
  specialize (IHl Hbl). specialize (IHr Hbr).
  remember (inorder_recurse l) as xs eqn:Exs. clear Exs Hbl.
  induction xs as [|x xs IHxs]; simpl.
  - constructor; assumption.
  - inversion IHl; subst. inversion Hl; subst.
    constructor; [now apply IHxs|].
    apply Forall_app. split; [assumption|].
    constructor; [lia|].
    eapply Forall_impl; [|exact Hr]. simpl. intros; lia.
Qed.

Lemma add_keeps_invariants (self : LinkedBST) (item : Z) :
  consistent self -> bst (_root self) ->
  exists self', add self item = Ok self'
                /\ consistent self' /\ bst (_root self')
                /\ Permutation (inorder self') (item :: inorder self).
Proof.
  intros Hc Hb. unfold add.
  destruct (isEmpty self) eqn:He.
  - pose proof (proj1 (consistent_empty_iff _ Hc) He) as Hroot.
    eexists. split; [reflexivity|].
    unfold consistent, inorder in *. rewrite Hroot in *. simpl in *.
    repeat split; auto. lia.
  - destruct (add_recurse_returns item (_root self)) as [root' Hadd].
    { intros Hr. apply (consistent_empty_iff _ Hc) in Hr. congruence. }
    rewrite Hadd. simpl. eexists. split; [reflexivity|].
    unfold consistent, inorder in *. simpl.
    rewrite (add_recurse_count _ _ _ Hadd).
    repeat split; [lia | eapply add_recurse_bst; eauto
                  | now apply add_recurse_inorder].
Qed.

Lemma add_all_keeps_invariants (items : list Z) (self : LinkedBST) :
  consistent self -> bst (_root self) ->
  exists self', add_all self items = Ok self'
                /\ consistent self' /\ bst (_root self')
                /\ Permutation (inorder self') (items ++ inorder self).
Proof.
  revert self. induction items as [|item items IH]; intros self Hc Hb; simpl.
  - exists self. auto.
  - destruct (add_keeps_invariants self item Hc Hb)
      as (self1 & -> & Hc1 & Hb1 & Hp1). simpl.
    destruct (IH self1 Hc1 Hb1) as (self' & Hall & Hc' & Hb' & Hp').
    exists self'. repeat split; auto.
    rewrite Hp', Hp1. symmetry. apply Permutation_middle.
Qed.

(** C6. Inserting any finite sequence of items (duplicates allowed) into
    an initially empty tree returns normally, and in the resulting tree
    every left subtree is strictly less than and every right subtree
    greater than or equal to its node, so [inorder()] is non-decreasing.
    As the sequence is arbitrary this holds after every insertion. *)
Theorem add_all_inorder_sorted (items : list Z) :
  exists self, add_all empty_bst items = Ok self
               /\ bst (_root self)
               /\ Sorted Z.le (inorder self).
Proof.
  destruct (add_all_keeps_invariants items empty_bst)
    as (self & Hall & _ & Hb & _).
  - reflexivity.
  - exact I.
  - exists self. repeat split; auto.
    apply StronglySorted_Sorted, bst_sorted, Hb.
Qed.

(** ** Search and removal *)

Lemma find_recurse_stored (item v : Z) (node : tree) :
  find_recurse item node = Some v ->
  v = item /\ In item (inorder_recurse node).
Proof.
  induction node as [|l IHl d r IHr]; simpl; [discriminate|].
  destruct (item =? d) eqn:Heq.
  - apply Z.eqb_eq in Heq. intros [= <-]. split; [congruence|].
    apply in_or_app. right. left. congruence.
  - destruct (item <? d); intros Hf.
    + destruct (IHl Hf) as [-> Hin]. split; [reflexivity|].
      apply in_or_app. now left.
    + destruct (IHr Hf) as [-> Hin]. split; [reflexivity|].
      apply in_or_app. right. now right.
Qed.

Lemma contains_stored (self : LinkedBST) (item : Z) :
  contains self item = true -> In item (inorder self).
Proof.
  unfold contains, find, inorder.
  destruct (find_recurse item (_root self)) as [v|] eqn:Hf; [|discriminate].
  intros _. now apply find_recurse_stored in Hf.
Qed.

(** The descent of [remove] follows the descent of [find]. *)
Lemma remove_loop_follows_find (item v : Z) (node : tree) :
  find_recurse item node = Some v ->
  exists hangs, remove_loop item node = Some (item, hangs).
Proof.
  induction node as [|l IHl d r IHr]; simpl; [discriminate|].
  rewrite (Z.eqb_sym d item), Z.gtb_ltb.
  destruct (item =? d) eqn:Heq.
  - apply Z.eqb_eq in Heq. subst d. eauto.
  - destruct (item <? d); intros Hf.
    + destruct (IHl Hf) as [hangs ->]. eauto.
    + destruct (IHr Hf) as [hangs ->]. eauto.
Qed.

(** C4. For every tree and every item not stored in it, [remove(item)]
    raises [KeyError] and leaves the object as it was: the item count and
    the [inorder()] output are the same after the failed call. *)
Theorem remove_absent_raises (self : LinkedBST) (item : Z) :
  ~ In item (inorder self) ->
  fst (remove self item) = Raise KeyError
  /\ snd (remove self item) = self
  /\ len (snd (remove self item)) = len self
  /\ inorder (snd (remove self item)) = inorder self.
Proof.
  intros Hnot. unfold remove.
  destruct (contains self item) eqn:Hc.
  - exfalso. apply Hnot. now apply contains_stored.
  - simpl. auto.
Qed.

(** C9. On every tree object (counter in step with the nodes), whenever
    [remove(item)] returns normally the returned value is [item]: after
    the membership precheck neither the empty-tree branch nor the
    item-not-located branch, which would return [None], is taken. *)
Theorem remove_returns_item (self : LinkedBST) (item : Z) (r : option Z) :
  consistent self ->
  fst (remove self item) = Ok r ->
  r = Some item.
Proof.
  intros Hc. unfold remove.
  destruct (contains self item) eqn:Hin; simpl; [|discriminate].
  unfold contains, find in Hin.
  destruct (find_recurse item (_root self)) as [v|] eqn:Hf; [|discriminate].
  destruct (remove_loop_follows_find _ _ _ Hf) as [hangs Hloop].
  destruct (isEmpty self) eqn:He.
  - apply (consistent_empty_iff _ Hc) in He.
    rewrite He in Hf. discriminate.
  - rewrite Hloop. simpl. congruence.
Qed.

(** ** Rebalancing *)

Lemma skipn_nth_cons (n : nat) (elems : list Z) (d : Z) :
  (n < length elems)%nat ->
  skipn n elems = nth n elems d :: skipn (S n) elems.
Proof.
  revert elems. induction n as [|n IH]; intros [|x xs] Hlt; simpl in *;
    try lia; [reflexivity|].
  apply IH. lia.
Qed.

Lemma split_at_mid (elems : list Z) :
  elems <> [] ->
  firstn (mid_of elems) elems
    ++ nth (mid_of elems) elems 0 :: skipn (mid_of elems + 1) elems
  = elems.
Proof.
  intros Hne. rewrite Nat.add_1_r, <- skipn_nth_cons.
  - apply firstn_skipn.
  - apply mid_of_lt, Hne.
Qed.

Lemma rb1_inorder (elems : list Z) :
  inorder_recurse (rb1 elems) = elems.
Proof.
  funelim (rb1 elems); simp rb1; [reflexivity|].
  simpl inorder_recurse. rewrite H, H0.
  apply split_at_mid. discriminate.
Qed.

Lemma rb1_empty (elems : list Z) : rb1 elems = Empty -> elems = [].
Proof.
  destruct elems; simp rb1; [reflexivity | discriminate].
Qed.

Lemma mid_halves (elems : list Z) :
  (2 * mid_of elems <= length elems
   /\ 2 * (length elems - (mid_of elems + 1)) <= length elems)%nat.
Proof.
  unfold mid_of.
  pose proof (Nat.div_mod_eq (length elems) 2).
  pose proof (Nat.mod_upper_bound (length elems) 2). lia.
Qed.

Lemma rb1_height_pow (elems : list Z) :
  elems <> [] -> (2 ^ height1 (rb1 elems) <= length elems)%nat.
Proof.
  funelim (rb1 elems); intros Hne; [congruence|].
  simp rb1. clear Hne.
  remember (x :: xs) as elems eqn:Eelems.
  assert (Hpos : (1 <= length elems)%nat) by (subst elems; simpl; lia).
  assert (Hlo : length (firstn (mid_of elems) elems) = mid_of elems).
  { rewrite length_firstn.
    pose proof (mid_of_lt elems ltac:(subst; discriminate)). lia. }
  pose proof (length_skipn (mid_of elems + 1) elems) as Hhi.
  pose proof (mid_halves elems) as [Hm1 Hm2].
  clear Eelems.
  remember (firstn (mid_of elems) elems) as lo eqn:Elo'.
  remember (skipn (mid_of elems + 1) elems) as hi eqn:Ehi'.
  clear Elo' Ehi' Heqcall.
  assert (Hl : (2 * 2 ^ height1 (rb1 lo) <= length elems
                \/ rb1 lo = Empty)%nat).
  { destruct lo as [|y ys].
    - right. now simp rb1.
    - left. specialize (H ltac:(discriminate)). lia. }
  assert (Hr : (2 * 2 ^ height1 (rb1 hi) <= length elems
                \/ rb1 hi = Empty)%nat).
  { destruct hi as [|y ys].
    - right. now simp rb1.
    - left. specialize (H0 ltac:(discriminate)). lia. }
  assert (Hboth : rb1 lo <> Empty \/ rb1 hi <> Empty ->
                  (2 <= length elems)%nat).
  { intros [Hn|Hn].
    - destruct lo; [exfalso; apply Hn; now simp rb1|]. simpl in Hlo. lia.
    - destruct hi; [exfalso; apply Hn; now simp rb1|]. simpl in Hhi. lia. }
  clear H H0.
  generalize dependent (rb1 hi). generalize dependent (rb1 lo).
  intros tl Hl tr Hr Hboth.
  destruct tl as [|ll ld lr]; destruct tr as [|rl rd rr].
  - simpl. lia.
  - destruct Hr as [Hr|Hr]; [|discriminate].
    change (2 ^ S (Nat.max 0 (height1 (Node rl rd rr))) <= length elems)%nat.
    rewrite Nat.max_r by lia. rewrite Nat.pow_succ_r'. exact Hr.
  - destruct Hl as [Hl|Hl]; [|discriminate].
    change (2 ^ S (Nat.max (height1 (Node ll ld lr)) 0) <= length elems)%nat.
    rewrite Nat.max_l by lia. rewrite Nat.pow_succ_r'. exact Hl.
  - destruct Hl as [Hl|Hl]; [|discriminate].
    destruct Hr as [Hr|Hr]; [|discriminate].
    change (2 ^ S (Nat.max (height1 (Node ll ld lr)) (height1 (Node rl rd rr)))
            <= length elems)%nat.
    rewrite Nat.pow_succ_r'.
    destruct (Nat.max_spec (height1 (Node ll ld lr)) (height1 (Node rl rd rr)))
      as [[_ ->]|[_ ->]]; assumption.
Qed.

Lemma rb1_height_log2 (elems : list Z) :
  (height1 (rb1 elems) <= Nat.log2 (length elems + 1))%nat.
Proof.
  destruct elems as [|x xs] eqn:E.
  - simp rb1. simpl. lia.
  - rewrite <- E. assert (Hne : elems <> []) by (subst; discriminate).
    pose proof (rb1_height_pow elems Hne) as Hpow.
    apply Nat.log2_le_pow2; lia.
Qed.

(** C5. For every tree holding n items, [rebalance()] leaves the
    [inorder()] sequence (hence the multiset of stored values) and the
    item count as they were, and afterwards [height()] is at most the
    integer part of the base-2 logarithm of n + 1. *)
Theorem rebalance_preserves_and_bounds (self : LinkedBST) :
  inorder (rebalance self) = inorder self
  /\ len (rebalance self) = len self
  /\ (height (rebalance self) <= Nat.log2 (length (inorder self) + 1))%nat.
Proof.
  unfold rebalance, inorder, height, len. simpl.
  split; [apply rb1_inorder|]. split; [reflexivity|].
  apply rb1_height_log2.
Qed.

(** ** Range queries *)

Lemma StronglySorted_filter (f : Z -> bool) (values : list Z) :
  StronglySorted Z.le values -> StronglySorted Z.le (filter f values).
Proof.
  induction 1 as [|x xs Hs IH Hall]; simpl; [constructor|].
  destruct (f x); [|exact IH].
  constructor; [exact IH|].
  apply Forall_forall. intros y Hy. apply filter_In in Hy as [Hy _].
  revert y Hy. now apply Forall_forall.
Qed.

(** C8, as the code has it.  For every tree and bounds [low], [high]:
    when some stored value lies in the closed range, [range_find] returns
    exactly the stored values of the range, in their inorder order; that
    order is sorted whenever [inorder()] is non-decreasing, as on every
    tree satisfying the ordering invariant, and need not be after a
    [replace].  When no value lies in the range it returns [None], and it
    never returns an empty list. *)
Theorem range_find_exact (self : LinkedBST) (low high : Z) :
  let qualifying :=
    filter (fun v => (low <=? v) && (v <=? high)) (inorder self) in
  (qualifying <> [] -> range_find self low high = Some qualifying)
  /\ (qualifying = [] -> range_find self low high = None)
  /\ range_find self low high <> Some []
  /\ (forall v, In v qualifying <-> In v (inorder self) /\ low <= v <= high)
  /\ (Sorted Z.le (inorder self) -> Sorted Z.le qualifying)
  /\ (bst (_root self) -> Sorted Z.le qualifying).
Proof.
  intros qualifying. unfold range_find. fold qualifying.
  assert (Hsorted : Sorted Z.le (inorder self) -> Sorted Z.le qualifying).
  { intros Hs. apply StronglySorted_Sorted, StronglySorted_filter.
    apply Sorted_StronglySorted; [|exact Hs].
    intros x y z. apply Z.le_trans. }
  repeat split.
  - intros Hne. destruct qualifying; [congruence|]. reflexivity.
  - intros ->. reflexivity.
  - destruct qualifying; simpl; congruence.
  - apply filter_In in H. tauto.
  - apply filter_In in H as [_ H]. apply andb_true_iff in H. lia.
  - apply filter_In in H as [_ H]. apply andb_true_iff in H. lia.
  - intros [Hin Hr]. apply filter_In. split; [exact Hin|].
    apply andb_true_iff. lia.
  - exact Hsorted.
  - intros Hb. apply Hsorted, StronglySorted_Sorted. now apply bst_sorted.
Qed.

(** ** Level order *)

Lemma print_level_at_depth (root : tree) (depth : nat) (lst : list Z) :
  print_level root (S depth) lst = lst ++ at_depth root depth.
Proof.
  revert depth lst. induction root as [|l IHl d r IHr]; intros depth lst.
  - simpl. now rewrite app_nil_r.
  - destruct depth as [|depth]; [reflexivity|].
    change (print_level r (S depth) (print_level l (S depth) lst)
            = lst ++ at_depth l depth ++ at_depth r depth).
    now rewrite IHl, IHr, app_assoc.
Qed.

Lemma levelorder_fold (root : tree) (depths : list nat) (lst : list Z) :
  fold_left (fun lst i => print_level root (i + 1)%nat lst) depths lst
  = lst ++ concat (map (at_depth root) depths).
Proof.
  revert lst. induction depths as [|i depths IH]; intros lst; simpl.
  - now rewrite app_nil_r.
  - rewrite IH, Nat.add_1_r, print_level_at_depth, app_assoc. reflexivity.
Qed.

(** [levelorder] collects the depths [0 .. height - 1]. *)
Lemma levelorder_levels (self : LinkedBST) :
  levelorder self
  = concat (map (at_depth (_root self)) (seq 0 (height self))).
Proof. unfold levelorder. apply levelorder_fold. Qed.

Lemma height1_node (l r : tree) (d : Z) :
  height1 (Node l d r)
  = if negb (truthy l) && negb (truthy r) then O
    else S (Nat.max (height1 l) (height1 r)).
Proof. reflexivity. Qed.

Lemma deepest_level_inhabited (root : tree) :
  root <> Empty -> at_depth root (height1 root) <> [].
Proof.
  induction root as [|l IHl d r IHr]; intros Hne; [congruence|].
  clear Hne.
  destruct l as [|ll ld lr]; destruct r as [|rl rd rr].
  - discriminate.
  - set (R := Node rl rd rr) in *.
    change (at_depth R (Nat.max 0 (height1 R)) <> []).
    rewrite Nat.max_0_l. apply IHr. discriminate.
  - set (L := Node ll ld lr) in *.
    change (at_depth L (Nat.max (height1 L) 0) ++ [] <> []).
    rewrite Nat.max_0_r, app_nil_r. apply IHl. discriminate.
  - set (L := Node ll ld lr) in *. set (R := Node rl rd rr) in *.
    change (at_depth L (Nat.max (height1 L) (height1 R))
            ++ at_depth R (Nat.max (height1 L) (height1 R)) <> []).
    intros Happ. apply app_eq_nil in Happ as [Hl Hr].
    destruct (Nat.max_spec (height1 L) (height1 R))
      as [[_ Hm]|[_ Hm]]; rewrite Hm in *.
    + apply IHr; [discriminate | exact Hr].
    + apply IHl; [discriminate | exact Hl].
Qed.

(** The full breadth-first sequence is what [levelorder] returns followed
    by the deepest level, which a tree with at least one node never has
    empty. *)
Lemma levelorder_omits_deepest (self : LinkedBST) :
  breadth_first (_root self)
  = levelorder self ++ at_depth (_root self) (height self).
Proof.
  unfold breadth_first. rewrite levelorder_levels. fold (height self).
  rewrite seq_S, map_app, concat_app. simpl. now rewrite app_nil_r.
Qed.

Lemma concat_map_app_perm (f g : nat -> list Z) (ks : list nat) :
  Permutation (concat (map (fun k => f k ++ g k) ks))
              (concat (map f ks) ++ concat (map g ks)).
Proof.
  induction ks as [|k ks IH]; simpl; [constructor|].
  rewrite IH, <- !app_assoc. apply Permutation_app_head.
  rewrite !app_assoc. apply Permutation_app_tail, Permutation_app_comm.
Qed.

Lemma levels_cover (node : tree) (n : nat) :
  node = Empty \/ (height1 node < n)%nat ->
  Permutation (concat (map (at_depth node) (seq 0 n))) (inorder_recurse node).
Proof.
  revert n. induction node as [|l IHl d r IHr]; intros n Hn.
  - simpl. clear Hn. generalize 0%nat.
    induction n as [|n IH]; intros s; simpl; [constructor | apply IH].
  - destruct Hn as [Hn|Hn]; [discriminate|].
    destruct n as [|n]; [lia|].
    rewrite <- cons_seq, <- seq_shift, map_cons, map_map.
    change (Permutation
              (d :: concat (map (fun k => at_depth l k ++ at_depth r k)
                                (seq 0 n)))
              (inorder_recurse l ++ d :: inorder_recurse r)).
    rewrite concat_map_app_perm.
    apply Permutation_cons_app.
    rewrite height1_node in Hn.
    destruct l as [|ll ld lr]; destruct r as [|rl rd rr];
      simpl truthy in Hn; simpl negb in Hn; simpl andb in Hn; cbv iota in Hn.
    + apply Permutation_app; [apply IHl | apply IHr]; now left.
    + apply Permutation_app; [apply IHl; now left | apply IHr; right; lia].
    + apply Permutation_app; [apply IHl; right; lia | apply IHr; now left].
    + apply Permutation_app; [apply IHl | apply IHr]; right; lia.
Qed.

Lemma breadth_first_complete (node : tree) :
  Permutation (breadth_first node) (inorder_recurse node).
Proof. apply levels_cover. right. lia. Qed.

(** On every tree with at least one node, [levelorder] returns fewer
    values than are stored. *)
Lemma levelorder_incomplete (self : LinkedBST) :
  _root self <> Empty ->
  (length (levelorder self) < length (inorder self))%nat.
Proof.
  intros Hne.
  pose proof (Permutation_length (breadth_first_complete (_root self))) as Hlen.
  rewrite levelorder_omits_deepest, length_app in Hlen.
  pose proof (deepest_level_inhabited _ Hne) as Hdeep.
  unfold inorder, height in *.
  destruct (at_depth (_root self) (height1 (_root self))); [congruence|].
  simpl in Hlen. lia.
Qed.

(** C2. The tree holding the single item 5 stores that value, as
    [inorder()] shows, yet [levelorder()] returns the empty list: the
    loop runs over [range(height)] and the height of a one-node tree
    is 0.  On the tree built from 5, 4, 6, 3, 8, 19 the value 19 of the
    deepest level is missing in the same way. *)
Theorem levelorder_single_node_empty :
  exists self, init [5] = Ok self
               /\ inorder self = [5]
               /\ breadth_first (_root self) = [5]
               /\ levelorder self = []
  /\ exists self', init [5; 4; 6; 3; 8; 19] = Ok self'
               /\ breadth_first (_root self') = [5; 4; 6; 3; 8; 19]
               /\ levelorder self' = [5; 4; 6; 3; 8].
Proof.
  eexists. repeat split. eexists. repeat split.
Qed.

(** ** Successor *)

Lemma successor_loop_fold (item min_num : Z) (stack : LinkedStack) :
  nodes_only stack ->
  successor_loop item min_num stack
  = Ok (fold_left (successor_step item)
                  (concat (map preorder_recurse stack)) min_num).
Proof.
  funelim (successor_loop item min_num stack); intros Hs.
  - reflexivity.
  - inversion Hs; subst. congruence.
  - inversion Hs as [|? ? _ Hs']; subst.
    rewrite H by (now do 2 apply nodes_only_push_if).
    rewrite !preorder_push_if. simpl. rewrite <- !app_assoc. reflexivity.
Qed.

Lemma successor_fold_least (item : Z) (values : list Z) (min_num : Z) :
  let r := fold_left (successor_step item) values min_num in
  (r = min_num \/ (In r values /\ item < r))
  /\ r <= min_num
  /\ forall x, In x values -> item < x -> r <= x.
Proof.
  revert min_num. induction values as [|d values IH]; intros min_num; simpl.
  - repeat split; [now left | lia | tauto].
  - specialize (IH (successor_step item min_num d)).
    simpl in IH. destruct IH as (Hr & Hle & Hmin).
    unfold successor_step in *.
    destruct (item <? d) eqn:Hlt; destruct (d <=? min_num) eqn:Hdm;
      simpl in *;
      try apply Z.ltb_lt in Hlt; try apply Z.ltb_ge in Hlt;
      try apply Z.leb_le in Hdm; try apply Z.leb_gt in Hdm.
    + repeat split.
      * right. destruct Hr as [->|[Hin Hgt]]; [split; [now left|lia]|].
        split; [now right | exact Hgt].
      * lia.
      * intros x [<-|Hx] Hix; [exact Hle | now apply Hmin].
    + repeat split.
      * destruct Hr as [->|[Hin Hgt]]; [now left|]. right. tauto.
      * exact Hle.
      * intros x [<-|Hx] Hix; [lia | now apply Hmin].
    + repeat split.
      * destruct Hr as [->|[Hin Hgt]]; [now left|]. right. tauto.
      * exact Hle.
      * intros x [<-|Hx] Hix; [lia | now apply Hmin].
    + repeat split.
      * destruct Hr as [->|[Hin Hgt]]; [now left|]. right. tauto.
      * exact Hle.
      * intros x [<-|Hx] Hix; [lia | now apply Hmin].
Qed.

Lemma preorder_inorder_perm (node : tree) :
  Permutation (preorder_recurse node) (inorder_recurse node).
Proof.
  induction node as [|l IHl d r IHr]; simpl; [constructor|].
  apply Permutation_cons_app. now apply Permutation_app.
Qed.

(** X20. On a tree all of whose values lie below the boundary value,
    [successor] returns the smallest stored value strictly greater than
    [item], and [None] exactly when there is none. *)
Lemma successor_below_sentinel (self : LinkedBST) (item : Z) :
  consistent self ->
  Forall (fun x => x < sentinel) (inorder self) ->
  exists answer, successor self item = Ok answer
                 /\ successor_of (inorder self) item answer.
Proof.
  intros Hc Hbound. unfold successor, push.
  assert (Hloop : (if negb (isEmpty self)
                   then successor_loop item sentinel [_root self]
                   else Ok sentinel)
                  = Ok (fold_left (successor_step item)
                                  (preorder self) sentinel)).
  { unfold preorder. destruct (isEmpty self) eqn:He; simpl.
    - apply (consistent_empty_iff _ Hc) in He. now rewrite He.
    - rewrite successor_loop_fold.
      + simpl. now rewrite app_nil_r.
      + constructor; [|constructor]. intros Hr.
        apply (consistent_empty_iff _ Hc) in Hr. congruence. }
  rewrite Hloop. simpl. eexists. split; [reflexivity|].
  pose proof (successor_fold_least item (preorder self) sentinel)
    as (Hr & _ & Hmin). simpl in Hr, Hmin.
  assert (Hsame : forall x, In x (preorder self) <-> In x (inorder self)).
  { intros x. unfold preorder, inorder.
    split; apply Permutation_in;
      [|symmetry]; apply preorder_inorder_perm. }
  rewrite Forall_forall in Hbound.
  destruct (fold_left (successor_step item) (preorder self) sentinel
            =? sentinel) eqn:Heq; simpl.
  - apply Z.eqb_eq in Heq. intros x Hx Hix.
    specialize (Hmin x (proj2 (Hsame x) Hx) Hix).
    specialize (Hbound x Hx). simpl in Hbound. lia.
  - apply Z.eqb_neq in Heq. destruct Hr as [Hr|[Hin Hgt]]; [congruence|].
    repeat split; [now apply Hsame | exact Hgt |].
    intros x Hx Hix. apply Hmin; [now apply Hsame | exact Hix].
Qed.

(** C3. The tree holding the single item [10**32] stores a value strictly
    greater than 0, yet [successor(0)] returns [None]: a stored value
    equal to the boundary value is taken for "no candidate".  A stored
    value above the boundary value is never a candidate either:
    with [10**32 + 1] alone in the tree [successor(0)] is [None] again. *)
Theorem successor_sentinel_suppressed :
  exists self, init [10 ^ 32] = Ok self
               /\ inorder self = [10 ^ 32]
               /\ successor self 0 = Ok None
               /\ ~ successor_of (inorder self) 0 None
  /\ exists self', init [10 ^ 32 + 1] = Ok self'
               /\ successor self' 0 = Ok None
               /\ ~ successor_of (inorder self') 0 None.
Proof.
  eexists. split; [reflexivity|]. split; [reflexivity|].
  split; [reflexivity|]. split.
  - intros H. apply (H (10 ^ 32)); [now left | reflexivity].
  - eexists. split; [reflexivity|]. split; [reflexivity|].
    intros H. apply (H (10 ^ 32 + 1)); [now left | reflexivity].
Qed.

(** ** The balance test *)

Lemma helper_counts (self : LinkedBST) :
  helper self = Z.of_nat (length (inorder self)).
Proof.
  unfold helper.
  assert (Hgen : forall (values : list Z) (cnt : Z),
             fold_left (fun cnt _ => cnt + 1) values cnt
             = cnt + Z.of_nat (length values)).
  { induction values as [|v values IH]; intros cnt; simpl length.
    - simpl. lia.
    - simpl fold_left. rewrite IH. lia. }
  rewrite Hgen. lia.
Qed.

Lemma exp_quarter_lower : (5 / 4 < exp (1 / 4))%R.
Proof.
  pose proof (exp_ineq1 (1 / 4)%R ltac:(lra)). lra.
Qed.

Lemma exp_double (x : R) : (exp (2 * x) = exp x * exp x)%R.
Proof. rewrite <- exp_plus. f_equal. lra. Qed.

Lemma exp_3_lower : (14 < exp 3)%R.
Proof.
  pose proof exp_quarter_lower as Hq.
  assert (Hh : (25 / 16 < exp (2 * (1 / 4)))%R) by (rewrite exp_double; nra).
  assert (H1 : (625 / 256 < exp (2 * (2 * (1 / 4))))%R)
    by (rewrite exp_double; nra).
  replace 3%R with (2 * (2 * (1 / 4)) + 2 * (2 * (2 * (1 / 4))))%R by lra.
  rewrite exp_plus, (exp_double (2 * (2 * (1 / 4)))).
  assert (H1sq : (390625 / 65536
                  < exp (2 * (2 * (1 / 4))) * exp (2 * (2 * (1 / 4))))%R)
    by nra.
  nra.
Qed.

(** The thresholds of the two instances below lie well away from the
    heights they are compared with, by far more than the rounding of a
    double-precision logarithm. *)
Lemma ln_16_upper : (ln 16 < 13 / 4)%R.
Proof.
  apply exp_lt_inv. rewrite exp_ln by lra.
  replace (13 / 4)%R with (3 + 1 / 4)%R by lra. rewrite exp_plus.
  pose proof exp_3_lower. pose proof exp_quarter_lower. nra.
Qed.

Lemma ln_16 : (ln 16 = 4 * ln 2)%R.
Proof.
  replace 16%R with (2 * (2 * (2 * 2)))%R by lra.
  rewrite !ln_mult by lra. lra.
Qed.

Lemma log2_16 : log2 16 = 4%R.
Proof.
  unfold log2. rewrite ln_16.
  assert (Hpos : (0 < ln 2)%R) by (pose proof ln_lt_2; lra).
  field. lra.
Qed.

Lemma ln_2_lower : (5 / 8 < ln 2)%R.
Proof.
  assert (Hs : (exp (5 / 32) < 32 / 27)%R).
  { pose proof (exp_ineq1 (- (5 / 32))%R ltac:(lra)) as Hlow.
    rewrite exp_Ropp in Hlow.
    pose proof (exp_pos (5 / 32)) as Hpos.
    apply Rmult_lt_reg_r with (/ exp (5 / 32))%R;
      [now apply Rinv_0_lt_compat|].
    rewrite Rinv_r by lra. lra. }
  apply exp_lt_inv. rewrite exp_ln by lra.
  replace (5 / 8)%R with (2 * (2 * (5 / 32)))%R by lra.
  rewrite exp_double, exp_double.
  pose proof (exp_pos (5 / 32)) as Hpos.
  assert (Hsq : (exp (5 / 32) * exp (5 / 32) < 1024 / 729)%R) by nra.
  assert (Hsq0 : (0 < exp (5 / 32) * exp (5 / 32))%R) by nra.
  nra.
Qed.

Lemma threshold_chain7 : (2 * ln 16 - 1 < 6 - 1 / 2)%R.
Proof. pose proof ln_16_upper. lra. Qed.

Lemma threshold_empty : (0 + 1 / 4 < 2 * ln 2 - 1)%R.
Proof. pose proof ln_2_lower. lra. Qed.

Lemma is_balanced_iff (self : LinkedBST) :
  is_balanced self = true <->
  (INR (height self)
   < 2 * ln (IZR (2 * (Z.of_nat (length (inorder self)) + 1))) - 1)%R.
Proof.
  unfold is_balanced. rewrite helper_counts.
  destruct (Rlt_dec _ _) as [Hlt|Hge]; split; intros H;
    try reflexivity; try assumption; try discriminate; contradiction.
Qed.

(** C1, as the code has it.  For every tree, [is_balanced()] counts the
    stored items n by a full inorder traversal and returns true if and
    only if [height() < 2·ln(2·(n+1)) − 1], where ln is the natural
    logarithm. *)
Theorem is_balanced_natural_log (self : LinkedBST) :
  helper self = Z.of_nat (count (_root self))
  /\ (is_balanced self = true <->
      (INR (height self)
       < 2 * ln (IZR (2 * (Z.of_nat (count (_root self)) + 1))) - 1)%R).
Proof.
  split.
  - rewrite helper_counts. unfold inorder. now rewrite inorder_length.
  - rewrite is_balanced_iff. unfold inorder. rewrite inorder_length.
    reflexivity.
Qed.

(** C1, counterexample.  The tree built by inserting 1, 2, ..., 7 in this
    order has 7 items and height 6; [is_balanced()] returns false, as
    2·ln 16 − 1 < 6, while 6 < 2·log2 16 − 1 = 7. *)
Lemma is_balanced_not_base_2 :
  init [1; 2; 3; 4; 5; 6; 7] = Ok chain7
  /\ is_balanced chain7 = false
  /\ balanced_log2 chain7
  /\ ~ (is_balanced chain7 = true <-> balanced_log2 chain7).
Proof.
  assert (Hh : INR (height chain7) = 6%R)
    by (rewrite INR_IZR_INZ; reflexivity).
  assert (Hn : IZR (2 * (Z.of_nat (length (inorder chain7)) + 1)) = 16%R)
    by reflexivity.
  assert (Hfalse : is_balanced chain7 = false).
  { destruct (is_balanced chain7) eqn:Hb; [|reflexivity].
    apply is_balanced_iff in Hb. rewrite Hh, Hn in Hb.
    pose proof threshold_chain7. lra. }
  assert (Hlog2 : balanced_log2 chain7).
  { unfold balanced_log2. rewrite Hh, Hn, log2_16. lra. }
  repeat split; try assumption.
  intros [_ Hback]. rewrite Hfalse in Hback.
  specialize (Hback Hlog2). discriminate.
Qed.

(** C10. On the empty tree, with zero stored items and height 0,
    [is_balanced()] returns true. *)
Theorem is_balanced_empty :
  helper empty_bst = 0
  /\ height empty_bst = 0%nat
  /\ is_balanced empty_bst = true.
Proof.
  split; [reflexivity|]. split; [reflexivity|].
  apply is_balanced_iff.
  change (0 < 2 * ln 2 - 1)%R.
  pose proof threshold_empty. lra.
Qed.

(** ** The class invariant on every object the operations produce *)

Lemma add_consistent (self self' : LinkedBST) (item : Z) :
  consistent self -> add self item = Ok self' -> consistent self'.
Proof.
  unfold add, consistent. intros Hc.
  destruct (isEmpty self) eqn:He.
  - apply (consistent_empty_iff _ Hc) in He. rewrite He in Hc.
    intros [= <-]. simpl in *. lia.
  - destruct (add_recurse item (_root self)) as [root'|] eqn:Hadd;
      simpl; [|discriminate].
    intros [= <-]. simpl. rewrite (add_recurse_count _ _ _ Hadd). lia.
Qed.

Lemma detach_max_count (r l : tree) (d m : Z) (rest : tree) :
  detach_max l d r = (m, rest) -> S (count rest) = count (Node l d r).
Proof.
  revert l d m rest. induction r as [|rl IHl rd rr IHr];
    intros l d m rest; simpl.
  - intros [= <- <-]. lia.
  - destruct (detach_max rl rd rr) as [m' r'] eqn:Hd.
    intros [= <- <-]. apply IHr in Hd. simpl in *. lia.
Qed.

Lemma remove_node_count (l r : tree) (d : Z) :
  S (count (remove_node (Node l d r))) = count (Node l d r).
Proof.
  destruct l as [|ll ld lr]; destruct r as [|rl rd rr]; simpl; try lia.
  destruct (detach_max ll ld lr) as [m l'] eqn:Hd.
  apply detach_max_count in Hd. simpl in *. lia.
Qed.

Lemma remove_loop_count (item x : Z) (node hangs : tree) :
  remove_loop item node = Some (x, hangs) -> S (count hangs) = count node.
Proof.
  revert hangs. induction node as [|l IHl d r IHr]; intros hangs;
    [discriminate|].
  unfold remove_loop; fold remove_loop.
  destruct (d =? item).
  - intros [= <- <-]. apply remove_node_count.
  - destruct (d >? item).
    + destruct (remove_loop item l) as [[y l']|]; [|discriminate].
      intros [= <- <-]. specialize (IHl _ eq_refl). simpl. lia.
    + destruct (remove_loop item r) as [[y r']|]; [|discriminate].
      intros [= <- <-]. specialize (IHr _ eq_refl). simpl. lia.
Qed.

Lemma remove_consistent (self : LinkedBST) (item : Z) :
  consistent self -> consistent (snd (remove self item)).
Proof.
  intros Hc. unfold remove.
  destruct (contains self item); simpl; [|exact Hc].
  destruct (isEmpty self); [exact Hc|].
  destruct (remove_loop item (_root self)) as [[x hangs]|] eqn:Hloop;
    [|exact Hc].
  apply remove_loop_count in Hloop.
  unfold consistent in *. simpl.
  destruct (_size self - 1 =? 0) eqn:Hz; simpl.
  - apply Z.eqb_eq in Hz. exact Hz.
  - lia.
Qed.

Lemma replace_loop_count (item new_item : Z) (probe : tree) :
  count (snd (replace_loop item new_item probe)) = count probe.
Proof.
  induction probe as [|l IHl d r IHr]; simpl; [reflexivity|].
  destruct (d =? item); [reflexivity|].
  destruct (d >? item).
  - destruct (replace_loop item new_item l). simpl in *. lia.
  - destruct (replace_loop item new_item r). simpl in *. lia.
Qed.

Lemma replace_consistent (self : LinkedBST) (item new_item : Z) :
  consistent self -> consistent (snd (replace self item new_item)).
Proof.
  unfold consistent, replace. intros Hc.
  pose proof (replace_loop_count item new_item (_root self)) as Hcount.
  destruct (replace_loop item new_item (_root self)). simpl in *. lia.
Qed.

Lemma rebalance_consistent (self : LinkedBST) :
  consistent self -> consistent (rebalance self).
Proof.
  unfold consistent, rebalance, inorder. simpl. intros ->.
  now rewrite <- (inorder_length (rb1 _)), rb1_inorder, inorder_length.
Qed.

(** Every object obtained from [LinkedBST()] by the mutators has its
    counter in step with its nodes. *)
Lemma reachable_consistent (self : LinkedBST) :
  reachable self -> consistent self.
Proof.
  induction 1.
  - reflexivity.
  - eapply add_consistent; eauto.
  - now apply remove_consistent.
  - now apply replace_consistent.
  - now apply rebalance_consistent.
  - reflexivity.
Qed.

(** ** Instances *)

Example scenario_built : init [5; 4; 6; 3; 8; 19] = Ok scenario.
Proof. reflexivity. Qed.

Lemma add_all_reachable (items : list Z) (self self' : LinkedBST) :
  reachable self -> add_all self items = Ok self' -> reachable self'.
Proof.
  revert self. induction items as [|item items IH]; intros self Hr; simpl.
  - now intros [= <-].
  - destruct (add self item) as [self1|] eqn:Hadd; simpl; [|discriminate].
    apply IH. eapply reach_add; eauto.
Qed.

Example scenario_reachable : reachable scenario.
Proof. exact (add_all_reachable _ _ _ reach_new scenario_built). Qed.

(** C4 on the scenario tree: 7 is not stored. *)
Lemma remove_absent_raises_witness :
  ~ In 7 (inorder scenario)
  /\ fst (remove scenario 7) = Raise KeyError
  /\ snd (remove scenario 7) = scenario
  /\ len (snd (remove scenario 7)) = len scenario
  /\ inorder (snd (remove scenario 7)) = inorder scenario.
Proof.
  assert (Habsent : ~ In 7 (inorder scenario)).
  { simpl. intros H. repeat (destruct H as [H|H]; [discriminate|]). exact H. }
  split; [exact Habsent|].
  apply (remove_absent_raises scenario 7 Habsent).
Defined.

(** C7 on the scenario tree. *)
Lemma iter_preorder_witness :
  consistent scenario /\ iter scenario = Ok (preorder scenario).
Proof.
  split; [reflexivity|]. apply (iter_preorder scenario). reflexivity.
Defined.

(** C9 on the scenario tree: removing the root value 5. *)
Lemma remove_returns_item_witness :
  consistent scenario
  /\ fst (remove scenario 5) = Ok (Some 5)
  /\ Some 5 = Some 5.
Proof.
  split; [reflexivity|]. split; [reflexivity|].
  apply (remove_returns_item scenario 5 (Some 5)); reflexivity.
Defined.

(** C8 on the scenario tree: a range with four values and one with none. *)
Lemma range_find_exact_witness :
  bst (_root scenario)
  /\ range_find scenario 4 8 = Some [4; 5; 6; 8]
  /\ range_find scenario 9 18 = None
  /\ Sorted Z.le [4; 5; 6; 8].
Proof.
  assert (Hb : bst (_root scenario)).
  { simpl. repeat split; repeat constructor; lia. }
  split; [exact Hb|].
  destruct (range_find_exact scenario 4 8)
    as (Hsome & _ & _ & _ & _ & Hsorted).
  destruct (range_find_exact scenario 9 18) as (_ & Hnone & _).
  split; [apply Hsome; discriminate|].
  split; [apply Hnone; reflexivity|].
  apply Hsorted, Hb.
Defined.

(** C8, counterexample.  [replace(8, 1)] on the scenario tree overwrites
    the 8 in place, below the 6; on the resulting tree, which the
    operations of the class produce, [range_find(0, 10)] returns
    [[3, 4, 5, 6, 1]], the qualifying values in inorder order, which is
    not sorted. *)
Lemma range_find_unsorted_after_replace :
  reachable (snd (replace scenario 8 1))
  /\ inorder (snd (replace scenario 8 1)) = [3; 4; 5; 6; 1; 19]
  /\ range_find (snd (replace scenario 8 1)) 0 10 = Some [3; 4; 5; 6; 1]
  /\ ~ Sorted Z.le [3; 4; 5; 6; 1].
Proof.
  split; [apply reach_replace, scenario_reachable|].
  split; [reflexivity|]. split; [reflexivity|].
  intros Hs.
  do 3 (apply Sorted_inv in Hs as [Hs _]).
  apply Sorted_inv in Hs as [_ Hrel].
  apply HdRel_inv in Hrel. lia.
Qed.

(** * Further properties of the operations *)

(** ** Non-decreasing sequences *)

Lemma ascending_app (xs ys : list Z) :
  ascending (xs ++ ys) <->
  ascending xs /\ ascending ys
  /\ forall x y, In x xs -> In y ys -> x <= y.
Proof.
  unfold ascending. induction xs as [|a xs IH]; simpl.
  - split; [intros H; repeat split; [constructor | exact H | tauto]|].
    now intros (_ & H & _).
  - split.
    + intros H. inversion H as [|? ? Hs Hall]; subst.
      apply IH in Hs as (Hxs & Hys & Hcross).
      rewrite Forall_app in Hall. destruct Hall as [Hax Hay].
      rewrite Forall_forall in Hay.
      repeat split; [constructor; assumption | assumption |].
      intros x y [<-|Hx] Hy; [now apply Hay | now apply Hcross].
    + intros (Hxs & Hys & Hcross).
      inversion Hxs as [|? ? Hs Hall]; subst.
      constructor.
      * apply IH. repeat split; auto.
      * apply Forall_app. split; [assumption|].
        apply Forall_forall. intros y Hy. apply Hcross; [now left | exact Hy].
Qed.

Lemma ascending_cons (a : Z) (xs : list Z) :
  ascending (a :: xs) <-> ascending xs /\ forall x, In x xs -> a <= x.
Proof.
  unfold ascending. split.
  - intros H. inversion H; subst. split; [assumption|].
    now apply Forall_forall.
  - intros [Hs Hall]. constructor; [assumption | now apply Forall_forall].
Qed.

Lemma ascending_Sorted (values : list Z) :
  ascending values <-> Sorted Z.le values.
Proof.
  split; [apply StronglySorted_Sorted|].
  apply Sorted_StronglySorted. intros x y z. apply Z.le_trans.
Qed.

(** What a non-decreasing inorder sequence says at a node. *)
Lemma ascending_node (l r : tree) (d : Z) :
  ascending (inorder_recurse (Node l d r)) ->
  ascending (inorder_recurse l) /\ ascending (inorder_recurse r)
  /\ (forall x, In x (inorder_recurse l) -> x <= d)
  /\ (forall y, In y (inorder_recurse r) -> d <= y).
Proof.
  simpl. intros H. apply ascending_app in H as (Hl & Hdr & Hcross).
  apply ascending_cons in Hdr as [Hr Hd].
  repeat split; auto. intros x Hx. apply Hcross; [exact Hx | now left].
Qed.

(** ** Lookup *)

Lemma find_recurse_complete (item : Z) (node : tree) :
  ascending (inorder_recurse node) ->
  In item (inorder_recurse node) ->
  find_recurse item node = Some item.
Proof.
  induction node as [|l IHl d r IHr]; intros Hs Hin; [destruct Hin|].
  apply ascending_node in Hs as (Hl & Hr & Hld & Hdr).
  simpl in *. apply in_app_or in Hin.
  destruct (item =? d) eqn:Heq.
  - apply Z.eqb_eq in Heq. now subst.
  - apply Z.eqb_neq in Heq. destruct (item <? d) eqn:Hlt.
    + apply Z.ltb_lt in Hlt. apply IHl; [exact Hl|].
      destruct Hin as [Hin|[Hin|Hin]]; [exact Hin | congruence |].
      specialize (Hdr _ Hin). lia.
    + apply Z.ltb_ge in Hlt. apply IHr; [exact Hr|].
      destruct Hin as [Hin|[Hin|Hin]]; [|congruence | exact Hin].
      specialize (Hld _ Hin). lia.
Qed.

(** X1. On a tree whose inorder sequence is non-decreasing, [find(item)]
    returns [item] exactly when [item] is stored and [None] otherwise, and
    [item in tree] is true exactly for the stored items. *)
Theorem find_exact (self : LinkedBST) (item : Z) :
  Sorted Z.le (inorder self) ->
  (In item (inorder self) -> find self item = Some item)
  /\ (~ In item (inorder self) -> find self item = None)
  /\ (contains self item = true <-> In item (inorder self)).
Proof.
  intros Hs. apply ascending_Sorted in Hs.
  assert (Hfound : In item (inorder self) -> find self item = Some item)
    by (apply find_recurse_complete, Hs).
  assert (Hmissing : ~ In item (inorder self) -> find self item = None).
  { intros Hnot. unfold find, inorder in *.
    destruct (find_recurse item (_root self)) as [v|] eqn:Hf; [|reflexivity].
    apply find_recurse_stored in Hf. tauto. }
  repeat split; auto.
  - apply contains_stored.
  - intros Hin. unfold contains. now rewrite Hfound.
Qed.

(** ** Insertion *)

Lemma add_recurse_position (item : Z) (node node' : tree) :
  ascending (inorder_recurse node) ->
  add_recurse item node = Ok node' ->
  exists before after,
    inorder_recurse node = before ++ after
    /\ inorder_recurse node' = before ++ item :: after
    /\ Forall (fun x => x <= item) before
    /\ Forall (fun x => item < x) after.
Proof.
  revert node'. induction node as [|l IHl d r IHr]; intros node' Hs Hadd;
    [discriminate|].
  apply ascending_node in Hs as (Hl & Hr & Hld & Hdr).
  unfold add_recurse in Hadd; fold add_recurse in Hadd.
  destruct (item <? d) eqn:Hlt.
  - apply Z.ltb_lt in Hlt.
    assert (Hafter : Forall (fun x => item < x) (d :: inorder_recurse r)).
    { constructor; [exact Hlt|]. apply Forall_forall. intros y Hy.
      specialize (Hdr _ Hy). lia. }
    destruct l as [|ll ld lr].
    + injection Hadd as <-. exists [], (d :: inorder_recurse r).
      repeat split; auto; constructor.
    + destruct (add_recurse item (Node ll ld lr)) as [l'|] eqn:Hl';
        simpl in Hadd; [|discriminate].
      injection Hadd as <-.
      destruct (IHl _ Hl eq_refl) as (before & after & E & E' & Hb & Ha).
      exists before, (after ++ d :: inorder_recurse r).
      change (inorder_recurse (Node (Node ll ld lr) d r))
        with (inorder_recurse (Node ll ld lr) ++ d :: inorder_recurse r).
      change (inorder_recurse (Node l' d r))
        with (inorder_recurse l' ++ d :: inorder_recurse r).
      split; [rewrite E, <- !app_assoc; reflexivity|].
      split; [rewrite E', <- !app_assoc; reflexivity|].
      split; [exact Hb|].
      apply Forall_app. split; assumption.
  - apply Z.ltb_ge in Hlt.
    assert (Hbefore : Forall (fun x => x <= item) (inorder_recurse l ++ [d])).
    { apply Forall_app. split; [|repeat constructor; lia].
      apply Forall_forall. intros x Hx. specialize (Hld _ Hx). lia. }
    destruct r as [|rl rd rr].
    + injection Hadd as <-. exists (inorder_recurse l ++ [d]), [].
      simpl. rewrite <- !app_assoc. repeat split; auto; constructor.
    + destruct (add_recurse item (Node rl rd rr)) as [r'|] eqn:Hr';
        simpl in Hadd; [|discriminate].
      injection Hadd as <-.
      destruct (IHr _ Hr eq_refl) as (before & after & E & E' & Hb & Ha).
      exists ((inorder_recurse l ++ [d]) ++ before), after.
      change (inorder_recurse (Node l d (Node rl rd rr)))
        with (inorder_recurse l ++ d :: inorder_recurse (Node rl rd rr)).
      change (inorder_recurse (Node l d r'))
        with (inorder_recurse l ++ d :: inorder_recurse r').
      split; [rewrite E, <- !app_assoc; reflexivity|].
      split; [rewrite E', <- !app_assoc; reflexivity|].
      split; [|exact Ha].
      apply Forall_app. split; assumption.
Qed.

Lemma ascending_insert (item : Z) (before after : list Z) :
  ascending (before ++ after) ->
  Forall (fun x => x <= item) before ->
  Forall (fun x => item < x) after ->
  ascending (before ++ item :: after).
Proof.
  intros Hs Hb Ha. rewrite Forall_forall in Hb, Ha.
  apply ascending_app in Hs as (Hsb & Hsa & Hcross).
  apply ascending_app. repeat split; [exact Hsb | |].
  - apply ascending_cons. split; [exact Hsa|].
    intros x Hx. specialize (Ha _ Hx). simpl in Ha. lia.
  - intros x y Hx [<-|Hy]; [now apply Hb | now apply Hcross].
Qed.

Lemma add_returns (self : LinkedBST) (item : Z) :
  consistent self -> exists self', add self item = Ok self'.
Proof.
  intros Hc. unfold add. destruct (isEmpty self) eqn:He; [eauto|].
  destruct (add_recurse_returns item (_root self)) as [root' ->]; [|simpl; eauto].
  intros Hr. apply (consistent_empty_iff _ Hc) in Hr. congruence.
Qed.

(** X2. On every tree object, [add(item)] returns normally, raises the
    item count by exactly one, and stores the item in addition to what
    was stored: the new inorder sequence is a permutation of the item and
    the old one. *)
Theorem add_counts_and_stores (self : LinkedBST) (item : Z) :
  consistent self ->
  exists self', add self item = Ok self'
                /\ len self' = len self + 1
                /\ consistent self'
                /\ Permutation (inorder self') (item :: inorder self).
Proof.
  intros Hc. unfold add.
  destruct (isEmpty self) eqn:He.
  - pose proof (proj1 (consistent_empty_iff _ Hc) He) as Hroot.
    eexists. split; [reflexivity|].
    unfold consistent, inorder, len in *. rewrite Hroot in *. simpl in *.
    repeat split; auto. lia.
  - destruct (add_recurse_returns item (_root self)) as [root' Hadd].
    { intros Hr. apply (consistent_empty_iff _ Hc) in Hr. congruence. }
    rewrite Hadd. simpl. eexists. split; [reflexivity|].
    unfold consistent, inorder, len in *. simpl.
    rewrite (add_recurse_count _ _ _ Hadd).
    repeat split; [lia | now apply add_recurse_inorder].
Qed.

(** X3. On a tree object whose inorder sequence is non-decreasing,
    [add(item)] places the item in the inorder sequence after every value
    less than or equal to it and before every greater value (so after
    the equal values already stored), leaving the other values in place;
    the sequence stays non-decreasing. *)
Theorem add_position (self : LinkedBST) (item : Z) :
  consistent self ->
  Sorted Z.le (inorder self) ->
  exists self' before after,
    add self item = Ok self'
    /\ inorder self = before ++ after
    /\ inorder self' = before ++ item :: after
    /\ Forall (fun x => x <= item) before
    /\ Forall (fun x => item < x) after
    /\ Sorted Z.le (inorder self').
Proof.
  intros Hc Hs. apply ascending_Sorted in Hs.
  destruct (add_returns self item Hc) as [self' Hadd].
  exists self'. unfold add in Hadd. unfold inorder in *.
  destruct (isEmpty self) eqn:He.
  - pose proof (proj1 (consistent_empty_iff _ Hc) He) as Hroot.
    injection Hadd as <-. exists [], []. rewrite Hroot. simpl.
    repeat split; auto. unfold add. rewrite He. reflexivity.
  - destruct (add_recurse item (_root self)) as [root'|] eqn:Hrec;
      simpl in Hadd; [|discriminate].
    injection Hadd as <-. simpl.
    destruct (add_recurse_position _ _ _ Hs Hrec)
      as (before & after & E & E' & Hb & Ha).
    exists before, after. repeat split; auto.
    + unfold add. rewrite He, Hrec. reflexivity.
    + rewrite E'. apply ascending_Sorted, ascending_insert; auto.
      now rewrite <- E.
Qed.

Lemma contains_iff_stored (self : LinkedBST) (x : Z) :
  ascending (inorder self) -> (contains self x = true <-> In x (inorder self)).
Proof.
  intros Hs. split; [apply contains_stored|].
  intros Hin. unfold contains, find.
  now rewrite (find_recurse_complete x (_root self) Hs Hin).
Qed.

Lemma add_sorted_split (self self' : LinkedBST) (item : Z) :
  consistent self -> ascending (inorder self) ->
  add self item = Ok self' ->
  exists before after,
    inorder self = before ++ after
    /\ inorder self' = before ++ item :: after
    /\ ascending (inorder self').
Proof.
  intros Hc Hs Hadd. unfold add in Hadd. unfold inorder in *.
  destruct (isEmpty self) eqn:He.
  - pose proof (proj1 (consistent_empty_iff _ Hc) He) as Hroot.
    injection Hadd as <-. exists [], []. rewrite Hroot. simpl.
    repeat split; repeat constructor.
  - destruct (add_recurse item (_root self)) as [root'|] eqn:Hrec;
      simpl in Hadd; [|discriminate].
    injection Hadd as <-. simpl.
    destruct (add_recurse_position _ _ _ Hs Hrec)
      as (before & after & E & E' & Hb & Ha).
    exists before, after. repeat split; auto.
    rewrite E'. apply ascending_insert; auto. now rewrite <- E.
Qed.

(** X4. On a tree object whose inorder sequence is non-decreasing, after
    [add(item)] the item is found, and any other value is found exactly
    if it was found before. *)
Theorem add_then_contains (self : LinkedBST) (item : Z) :
  consistent self ->
  Sorted Z.le (inorder self) ->
  exists self', add self item = Ok self'
                /\ find self' item = Some item
                /\ forall x, contains self' x = true
                             <-> x = item \/ contains self x = true.
Proof.
  intros Hc Hs. apply ascending_Sorted in Hs.
  destruct (add_returns self item Hc) as [self' Hadd].
  exists self'. split; [exact Hadd|].
  destruct (add_sorted_split _ _ _ Hc Hs Hadd)
    as (before & after & E & E' & Hs').
  split.
  - apply find_recurse_complete; [exact Hs'|].
    fold (inorder self'). rewrite E'. apply in_or_app. right. now left.
  - intros x. rewrite (contains_iff_stored self' x Hs').
    rewrite (contains_iff_stored self x Hs). rewrite E, E'.
    rewrite !in_app_iff. simpl. intuition congruence.
Qed.

(** X5. [LinkedBST(items)] returns normally; the object holds exactly the
    given items (its inorder sequence is a permutation of them, and
    non-decreasing) and its item count is their number. *)
Theorem init_holds_items (items : list Z) :
  exists self, init items = Ok self
               /\ Permutation (inorder self) items
               /\ Sorted Z.le (inorder self)
               /\ len self = Z.of_nat (length items).
Proof.
  destruct (add_all_keeps_invariants items empty_bst)
    as (self & Hall & Hc & Hb & Hp); [reflexivity | exact I |].
  exists self. unfold inorder in Hp. simpl in Hp. rewrite app_nil_r in Hp.
  repeat split; auto.
  - apply StronglySorted_Sorted, bst_sorted, Hb.
  - unfold len. rewrite Hc, <- inorder_length.
    f_equal. now apply Permutation_length.
Qed.

(** ** Removal *)

Lemma detach_max_inorder (r l : tree) (d m : Z) (rest : tree) :
  detach_max l d r = (m, rest) ->
  inorder_recurse (Node l d r) = inorder_recurse rest ++ [m].
Proof.
  revert l d m rest. induction r as [|rl _ rd rr IHr];
    intros l d m rest; simpl.
  - intros [= <- <-]. reflexivity.
  - destruct (detach_max rl rd rr) as [m' r'] eqn:Hd.
    intros [= <- <-]. apply IHr in Hd. simpl in *.
    rewrite Hd, <- app_assoc. reflexivity.
Qed.

Lemma remove_node_inorder (l r : tree) (d : Z) :
  inorder_recurse (remove_node (Node l d r))
  = inorder_recurse l ++ inorder_recurse r.
Proof.
  destruct l as [|ll ld lr]; destruct r as [|rl rd rr]; simpl;
    try reflexivity; try (now rewrite app_nil_r).
  destruct (detach_max ll ld lr) as [m l'] eqn:Hd.
  apply detach_max_inorder in Hd. simpl in *.
  rewrite Hd, <- app_assoc. reflexivity.
Qed.

Lemma remove_loop_inorder (item x : Z) (node hangs : tree) :
  remove_loop item node = Some (x, hangs) ->
  x = item /\ exists before after,
    inorder_recurse node = before ++ item :: after
    /\ inorder_recurse hangs = before ++ after.
Proof.
  revert hangs. induction node as [|l IHl d r IHr]; intros hangs;
    [discriminate|].
  unfold remove_loop; fold remove_loop.
  destruct (d =? item) eqn:Heq.
  - apply Z.eqb_eq in Heq. subst d. intros [= <- <-]. split; [reflexivity|].
    exists (inorder_recurse l), (inorder_recurse r).
    split; [reflexivity | apply remove_node_inorder].
  - destruct (d >? item).
    + destruct (remove_loop item l) as [[y l']|]; [|discriminate].
      intros [= <- <-].
      destruct (IHl _ eq_refl) as (-> & before & after & E & E').
      split; [reflexivity|].
      exists before, (after ++ d :: inorder_recurse r). simpl.
      rewrite E, E', <- !app_assoc. split; reflexivity.
    + destruct (remove_loop item r) as [[y r']|]; [|discriminate].
      intros [= <- <-].
      destruct (IHr _ eq_refl) as (-> & before & after & E & E').
      split; [reflexivity|].
      exists (inorder_recurse l ++ d :: before), after. simpl.
      rewrite E, E', <- !app_assoc. split; reflexivity.
Qed.

(** How a call of [remove] ends on a tree object. *)
Lemma remove_outcome (self : LinkedBST) (item : Z) :
  consistent self ->
  (contains self item = false /\ remove self item = (Raise KeyError, self))
  \/ (contains self item = true /\ exists self' before after,
        remove self item = (Ok (Some item), self')
        /\ inorder self = before ++ item :: after
        /\ inorder self' = before ++ after
        /\ _size self' = _size self - 1).
Proof.
  intros Hc. unfold remove.
  destruct (contains self item) eqn:Hin; simpl; [right | now left].
  split; [reflexivity|].
  unfold contains, find in Hin.
  destruct (find_recurse item (_root self)) as [v|] eqn:Hf; [|discriminate].
  destruct (remove_loop_follows_find _ _ _ Hf) as [hangs Hloop].
  destruct (isEmpty self) eqn:He.
  { apply (consistent_empty_iff _ Hc) in He. rewrite He in Hf. discriminate. }
  rewrite Hloop.
  pose proof (remove_loop_count _ _ _ _ Hloop) as Hcount.
  destruct (remove_loop_inorder _ _ _ _ Hloop) as (_ & before & after & E & E').
  eexists. exists before, after. split; [reflexivity|].
  unfold inorder. simpl. repeat split; [exact E|].
  unfold consistent in Hc.
  destruct (_size self - 1 =? 0) eqn:Hz; [|exact E'].
  apply Z.eqb_eq in Hz.
  assert (Hempty : count hangs = O) by lia.
  rewrite <- inorder_length, E' in Hempty.
  destruct (before ++ after); [reflexivity | discriminate].
Qed.

(** X6. On every tree object, [remove(item)] of an item that [find]
    locates returns the item, lowers the item count by exactly one and
    deletes one occurrence of the item from the inorder sequence, leaving
    every other value where it was. *)
Theorem remove_present (self : LinkedBST) (item : Z) :
  consistent self ->
  contains self item = true ->
  exists self' before after,
    remove self item = (Ok (Some item), self')
    /\ inorder self = before ++ item :: after
    /\ inorder self' = before ++ after
    /\ len self' = len self - 1
    /\ consistent self'.
Proof.
  intros Hc Hin.
  destruct (remove_outcome self item Hc) as [[Hno _]|[_ Hyes]]; [congruence|].
  destruct Hyes as (self' & before & after & Hrem & E & E' & Hsize).
  exists self', before, after. repeat split; auto.
  pose proof (remove_consistent self item Hc) as Hc'.
  now rewrite Hrem in Hc'.
Qed.

Lemma ascending_delete (item : Z) (before after : list Z) :
  ascending (before ++ item :: after) -> ascending (before ++ after).
Proof.
  intros Hs. apply ascending_app in Hs as (Hb & Ha & Hcross).
  apply ascending_cons in Ha as [Ha _].
  apply ascending_app. repeat split; auto.
  intros x y Hx Hy. apply Hcross; [exact Hx | now right].
Qed.

(** X7. On every tree object, whichever way [remove(item)] ends, a
    non-decreasing inorder sequence is non-decreasing afterwards, and
    every value other than [item] is stored as often as before. *)
Theorem remove_keeps_order (self : LinkedBST) (item : Z) :
  consistent self ->
  Sorted Z.le (inorder self) ->
  Sorted Z.le (inorder (snd (remove self item)))
  /\ forall x, x <> item ->
       count_occ Z.eq_dec (inorder (snd (remove self item))) x
       = count_occ Z.eq_dec (inorder self) x.
Proof.
  intros Hc Hs.
  destruct (remove_outcome self item Hc) as [[_ ->]|[_ Hyes]]; [now split|].
  destruct Hyes as (self' & before & after & -> & E & E' & _). simpl.
  rewrite E, E' in *. split.
  - apply ascending_Sorted, (ascending_delete item), ascending_Sorted, Hs.
  - intros x Hx. rewrite !count_occ_app. simpl.
    destruct (Z.eq_dec item x); [congruence | reflexivity].
Qed.

(** ** Replacement *)

Lemma replace_loop_follows_find (item new_item : Z) (probe : tree) :
  fst (replace_loop item new_item probe) = find_recurse item probe.
Proof.
  induction probe as [|l IHl d r IHr]; simpl; [reflexivity|].
  rewrite (Z.eqb_sym d item), Z.gtb_ltb.
  destruct (item =? d); [reflexivity|].
  destruct (item <? d).
  - destruct (replace_loop item new_item l). exact IHl.
  - destruct (replace_loop item new_item r). exact IHr.
Qed.

Lemma replace_loop_missing (item new_item : Z) (probe : tree) :
  find_recurse item probe = None ->
  snd (replace_loop item new_item probe) = probe.
Proof.
  induction probe as [|l IHl d r IHr]; simpl; [reflexivity|].
  rewrite (Z.eqb_sym d item), Z.gtb_ltb.
  destruct (item =? d); [discriminate|].
  destruct (item <? d); intros Hf.
  - specialize (IHl Hf). destruct (replace_loop item new_item l).
    simpl in *. now subst.
  - specialize (IHr Hf). destruct (replace_loop item new_item r).
    simpl in *. now subst.
Qed.

Lemma replace_loop_found (item new_item v : Z) (probe : tree) :
  find_recurse item probe = Some v ->
  exists before after,
    inorder_recurse probe = before ++ item :: after
    /\ inorder_recurse (snd (replace_loop item new_item probe))
       = before ++ new_item :: after.
Proof.
  induction probe as [|l IHl d r IHr]; simpl; [discriminate|].
  rewrite (Z.eqb_sym d item), Z.gtb_ltb.
  destruct (item =? d) eqn:Heq.
  - apply Z.eqb_eq in Heq. subst d. intros _.
    exists (inorder_recurse l), (inorder_recurse r). now split.
  - destruct (item <? d); intros Hf.
    + destruct (IHl Hf) as (before & after & E & E').
      destruct (replace_loop item new_item l) as [old l']. simpl in *.
      exists before, (after ++ d :: inorder_recurse r).
      rewrite E, E', <- !app_assoc. now split.
    + destruct (IHr Hf) as (before & after & E & E').
      destruct (replace_loop item new_item r) as [old r']. simpl in *.
      exists (inorder_recurse l ++ d :: before), after.
      rewrite E, E', <- !app_assoc. now split.
Qed.

(** X8. [replace(item, new_item)] returns what [find(item)] returns.  When
    that is [None] the tree is left exactly as it was; otherwise one
    occurrence of [item] in the inorder sequence becomes [new_item], all
    other values stay in place, and the item count is unchanged in both
    cases. *)
Theorem replace_overwrites_in_place (self : LinkedBST) (item new_item : Z) :
  fst (replace self item new_item) = find self item
  /\ len (snd (replace self item new_item)) = len self
  /\ (find self item = None -> snd (replace self item new_item) = self)
  /\ (find self item = Some item ->
      exists before after,
        inorder self = before ++ item :: after
        /\ inorder (snd (replace self item new_item))
           = before ++ new_item :: after).
Proof.
  unfold replace, find, inorder, len.
  pose proof (replace_loop_follows_find item new_item (_root self)) as Hfst.
  pose proof (replace_loop_missing item new_item (_root self)) as Hmiss.
  pose proof (replace_loop_found item new_item item (_root self)) as Hfound.
  destruct (replace_loop item new_item (_root self)) as [old root'].
  simpl in *. repeat split; auto.
  intros Hf. rewrite (Hmiss Hf). now destruct self.
Qed.

(** ** Successor and predecessor *)

(** X9. On every tree object, [successor(item)] returns normally, and a
    value it returns is stored, strictly greater than [item], no greater
    than any stored value above [item], and strictly below [10**32]. *)
Theorem successor_sound (self : LinkedBST) (item : Z) :
  consistent self ->
  exists answer,
    successor self item = Ok answer
    /\ forall v, answer = Some v ->
         In v (inorder self) /\ item < v /\ v < sentinel
         /\ forall x, In x (inorder self) -> item < x -> v <= x.
Proof.
  intros Hc. unfold successor, push.
  assert (Hloop : (if negb (isEmpty self)
                   then successor_loop item sentinel [_root self]
                   else Ok sentinel)
                  = Ok (fold_left (successor_step item)
                                  (preorder self) sentinel)).
  { unfold preorder. destruct (isEmpty self) eqn:He; simpl.
    - apply (consistent_empty_iff _ Hc) in He. now rewrite He.
    - rewrite successor_loop_fold.
      + simpl. now rewrite app_nil_r.
      + constructor; [|constructor]. intros Hr.
        apply (consistent_empty_iff _ Hc) in Hr. congruence. }
  rewrite Hloop. simpl. eexists. split; [reflexivity|].
  pose proof (successor_fold_least item (preorder self) sentinel)
    as (Hr & Hle & Hmin). simpl in Hr, Hle, Hmin.
  assert (Hsame : forall x, In x (preorder self) <-> In x (inorder self)).
  { intros x. unfold preorder, inorder.
    split; apply Permutation_in;
      [|symmetry]; apply preorder_inorder_perm. }
  intros v.
  destruct (fold_left (successor_step item) (preorder self) sentinel
            =? sentinel) eqn:Heq; simpl; [discriminate|].
  apply Z.eqb_neq in Heq. intros [= <-].
  destruct Hr as [Hr|[Hin Hgt]]; [congruence|].
  repeat split; [now apply Hsame | exact Hgt | lia |].
  intros x Hx Hix. apply Hmin; [now apply Hsame | exact Hix].
Qed.

Lemma predecessor_loop_fold (item max_num : Z) (stack : LinkedStack) :
  nodes_only stack ->
  predecessor_loop item max_num stack
  = Ok (fold_left (predecessor_step item)
                  (concat (map right_first stack)) max_num).
Proof.
  funelim (predecessor_loop item max_num stack); intros Hs.
  - reflexivity.
  - inversion Hs; subst. congruence.
  - inversion Hs as [|? ? _ Hs']; subst.
    rewrite H by (now do 2 apply nodes_only_push_if).
    assert (Hpush : forall node st,
               concat (map right_first (push_if node st))
               = right_first node ++ concat (map right_first st))
      by (intros [|? ? ?] st; reflexivity).
    rewrite !Hpush. simpl. rewrite <- !app_assoc. reflexivity.
Qed.

Lemma predecessor_fold_greatest (item : Z) (values : list Z) (max_num : Z) :
  let r := fold_left (predecessor_step item) values max_num in
  (r = max_num \/ (In r values /\ r < item))
  /\ max_num <= r
  /\ forall x, In x values -> x < item -> x <= r.
Proof.
  revert max_num. induction values as [|d values IH]; intros max_num; simpl.
  - repeat split; [now left | lia | tauto].
  - specialize (IH (predecessor_step item max_num d)).
    simpl in IH. destruct IH as (Hr & Hle & Hmax).
    unfold predecessor_step in *.
    destruct (max_num <=? d) eqn:Hmd; destruct (d <? item) eqn:Hlt;
      simpl in *;
      try apply Z.ltb_lt in Hlt; try apply Z.ltb_ge in Hlt;
      try apply Z.leb_le in Hmd; try apply Z.leb_gt in Hmd;
      (repeat split;
       [ destruct Hr as [Hr|[Hin Hgt]];
         [ first [ now left | right; subst; split; [now left | lia] ]
         | right; tauto ]
       | lia
       | intros x [<-|Hx] Hix; [lia | now apply Hmax] ]).
Qed.

Lemma right_first_inorder_perm (node : tree) :
  Permutation (right_first node) (inorder_recurse node).
Proof.
  induction node as [|l IHl d r IHr]; simpl; [constructor|].
  apply Permutation_cons_app. rewrite Permutation_app_comm.
  now apply Permutation_app.
Qed.

Lemma predecessor_run (self : LinkedBST) (item : Z) :
  consistent self ->
  exists values,
    Permutation values (inorder self)
    /\ predecessor self item
       = Ok (let r := fold_left (predecessor_step item) values (- sentinel) in
             if negb (r =? - sentinel) then Some r else None).
Proof.
  intros Hc. exists (right_first (_root self)).
  split; [apply right_first_inorder_perm|].
  unfold predecessor, push. destruct (isEmpty self) eqn:He; cbn [negb bind].
  - apply (consistent_empty_iff _ Hc) in He. now rewrite He.
  - rewrite predecessor_loop_fold.
    + cbn [map concat bind]. now rewrite app_nil_r.
    + constructor; [|constructor]. intros Hr.
      apply (consistent_empty_iff _ Hc) in Hr. congruence.
Qed.

(** X10. On every tree object, [predecessor(item)] returns normally, and
    a value it returns is stored, strictly less than [item], no less
    than any stored value below [item], and strictly above [-(10**32)]. *)
Theorem predecessor_sound (self : LinkedBST) (item : Z) :
  consistent self ->
  exists answer,
    predecessor self item = Ok answer
    /\ forall v, answer = Some v ->
         In v (inorder self) /\ v < item /\ - sentinel < v
         /\ forall x, In x (inorder self) -> x < item -> x <= v.
Proof.
  intros Hc. destruct (predecessor_run self item Hc) as (values & Hp & ->).
  eexists. split; [reflexivity|]. cbv zeta.
  pose proof (predecessor_fold_greatest item values (- sentinel))
    as (Hr & Hle & Hmax). cbv zeta in Hr, Hle, Hmax.
  remember (fold_left (predecessor_step item) values (- sentinel)) as r.
  remember (- sentinel) as low. clear Heqr.
  intros v.
  destruct (r =? low) eqn:Heq; cbn [negb]; [discriminate|].
  apply Z.eqb_neq in Heq. intros Hv. assert (r = v) by congruence. subst v.
  destruct Hr as [Hr|[Hin Hgt]]; [congruence|].
  repeat split; [now apply (Permutation_in _ Hp) | exact Hgt | lia |].
  intros x Hx Hix. apply Hmax; [|exact Hix].
  now apply (Permutation_in _ (Permutation_sym Hp)).
Qed.

(** X11. On a tree object all of whose values lie above [-(10**32)],
    [predecessor(item)] returns the largest stored value strictly less
    than [item], and [None] exactly when there is none. *)
Theorem predecessor_above_sentinel (self : LinkedBST) (item : Z) :
  consistent self ->
  Forall (fun x => - sentinel < x) (inorder self) ->
  exists answer, predecessor self item = Ok answer
                 /\ predecessor_of (inorder self) item answer.
Proof.
  intros Hc Hbound.
  destruct (predecessor_run self item Hc) as (values & Hp & ->).
  eexists. split; [reflexivity|]. cbv zeta.
  pose proof (predecessor_fold_greatest item values (- sentinel))
    as (Hr & _ & Hmax). cbv zeta in Hr, Hmax.
  rewrite Forall_forall in Hbound.
  remember (fold_left (predecessor_step item) values (- sentinel)) as r.
  remember (- sentinel) as low. clear Heqr.
  destruct (r =? low) eqn:Heq; cbn [negb].
  - apply Z.eqb_eq in Heq. intros x Hx Hix.
    specialize (Hmax x (Permutation_in _ (Permutation_sym Hp) Hx) Hix).
    specialize (Hbound x Hx). cbv beta in Hbound. lia.
  - apply Z.eqb_neq in Heq. destruct Hr as [Hr|[Hin Hgt]]; [congruence|].
    repeat split; [now apply (Permutation_in _ Hp) | exact Hgt |].
    intros x Hx Hix. apply Hmax; [|exact Hix].
    now apply (Permutation_in _ (Permutation_sym Hp)).
Qed.

(** ** Traversals and height *)

Lemma postorder_inorder_perm (node : tree) :
  Permutation (postorder_recurse node) (inorder_recurse node).
Proof.
  induction node as [|l IHl d r IHr]; simpl; [constructor|].
  rewrite app_assoc, <- Permutation_cons_append.
  apply Permutation_cons_app. now apply Permutation_app.
Qed.

(** X12. The three recursive traversals visit the same values: [preorder()]
    and [postorder()] are permutations of [inorder()], each yields one
    value per node, [preorder()] starts with the root value and
    [postorder()] ends with it. *)
Theorem traversals_agree (self : LinkedBST) :
  Permutation (preorder self) (inorder self)
  /\ Permutation (postorder self) (inorder self)
  /\ length (inorder self) = count (_root self)
  /\ (forall l d r, _root self = Node l d r ->
        hd_error (preorder self) = Some d
        /\ last (postorder self) 0 = d).
Proof.
  unfold preorder, postorder, inorder.
  split; [apply preorder_inorder_perm|].
  split; [apply postorder_inorder_perm|].
  split; [apply inorder_length|].
  intros l d r ->. split; [reflexivity|].
  simpl. rewrite app_assoc. apply last_last.
Qed.

Lemma height1_below_count (node : tree) :
  (height1 node <= Nat.pred (count node))%nat.
Proof.
  induction node as [|l IHl d r IHr]; [simpl; lia|].
  rewrite height1_node.
  destruct l as [|ll ld lr]; destruct r as [|rl rd rr];
    simpl truthy; simpl negb; simpl andb; cbv iota.
  - lia.
  - rewrite Nat.max_0_l. simpl count in *. lia.
  - rewrite Nat.max_0_r. simpl count in *. lia.
  - simpl count in *.
    destruct (Nat.max_spec (height1 (Node ll ld lr)) (height1 (Node rl rd rr)))
      as [[_ ->]|[_ ->]]; lia.
Qed.

Lemma count_below_pow (node : tree) :
  (count node + 1 <= 2 ^ (height1 node + 1))%nat.
Proof.
  induction node as [|l IHl d r IHr]; [simpl; lia|].
  rewrite height1_node.
  destruct (negb (truthy l) && negb (truthy r)) eqn:Hleaf.
  - destruct l, r; try discriminate. simpl. lia.
  - assert (Hl : (2 ^ (height1 l + 1)
                  <= 2 ^ (Nat.max (height1 l) (height1 r) + 1))%nat)
      by (apply Nat.pow_le_mono_r; lia).
    assert (Hr : (2 ^ (height1 r + 1)
                  <= 2 ^ (Nat.max (height1 l) (height1 r) + 1))%nat)
      by (apply Nat.pow_le_mono_r; lia).
    change (count (Node l d r)) with (S (count l + count r)).
    replace (S (Nat.max (height1 l) (height1 r)) + 1)%nat
      with (S (Nat.max (height1 l) (height1 r) + 1)) by lia.
    rewrite Nat.pow_succ_r'. lia.
Qed.

(** X13. With n stored items, [height()] is at most n − 1 (0 on the empty
    tree), and n + 1 is at most 2 to the power [height() + 1]. *)
Theorem height_bounds (self : LinkedBST) :
  (height self <= Nat.pred (length (inorder self)))%nat
  /\ (length (inorder self) + 1 <= 2 ^ (height self + 1))%nat.
Proof.
  unfold height, inorder. rewrite inorder_length.
  split; [apply height1_below_count | apply count_below_pow].
Qed.

(** X14. [levelorder()] returns, depth by depth and left to right, the
    values at the depths 0 to [height() − 1]; followed by the values at
    depth [height()], which it leaves out, they are the breadth-first
    sequence, a permutation of all stored values. *)
Theorem levelorder_all_but_deepest (self : LinkedBST) :
  levelorder self
  = concat (map (at_depth (_root self)) (seq 0 (height self)))
  /\ breadth_first (_root self)
     = levelorder self ++ at_depth (_root self) (height self)
  /\ Permutation (breadth_first (_root self)) (inorder self).
Proof.
  split; [apply levelorder_levels|].
  split; [apply levelorder_omits_deepest | apply breadth_first_complete].
Qed.

(** ** Range queries at the bounds *)

(** X15. With [low] above [high] nothing qualifies: [range_find] returns
    [None] on every tree. *)
Theorem range_find_crossed_bounds (self : LinkedBST) (low high : Z) :
  high < low -> range_find self low high = None.
Proof.
  intros Hcross. unfold range_find.
  assert (Hnone : filter (fun number => (low <=? number) && (number <=? high))
                         (inorder self) = []).
  { induction (inorder self) as [|v values IH]; [reflexivity|].
    simpl. destruct (low <=? v) eqn:H1; destruct (v <=? high) eqn:H2;
      simpl; try exact IH.
    apply Z.leb_le in H1, H2. lia. }
  now rewrite Hnone.
Qed.

(** ** Rebalancing, continued *)

(** X16. Rebalancing a rebalanced tree changes nothing, and two trees
    with the same inorder sequence rebalance to the same shape. *)
Theorem rebalance_idempotent (self : LinkedBST) :
  rebalance (rebalance self) = rebalance self
  /\ forall other, inorder other = inorder self ->
       _root (rebalance other) = _root (rebalance self).
Proof.
  split.
  - unfold rebalance, inorder. simpl. now rewrite rb1_inorder.
  - intros other E. unfold rebalance. simpl. now rewrite E.
Qed.

(** X17. On a tree whose inorder sequence is non-decreasing, after
    [rebalance()] exactly the stored values are found, although equal
    values may then sit in a left subtree. *)
Theorem rebalance_then_contains (self : LinkedBST) (x : Z) :
  Sorted Z.le (inorder self) ->
  (contains (rebalance self) x = true <-> In x (inorder self)).
Proof.
  intros Hs. apply ascending_Sorted in Hs.
  assert (E : inorder (rebalance self) = inorder self)
    by (unfold rebalance, inorder; simpl; apply rb1_inorder).
  rewrite <- E. apply contains_iff_stored. now rewrite E.
Qed.

Lemma ln_pow2 (k : nat) : (ln (2 ^ k) = INR k * ln 2)%R.
Proof. apply ln_pow. lra. Qed.

(** X18. After [rebalance()], [is_balanced()] returns true, whatever the
    tree was: the height stays below the threshold of the test by more
    than a quarter. *)
Theorem rebalance_then_balanced (self : LinkedBST) :
  is_balanced (rebalance self) = true
  /\ (INR (height (rebalance self)) + 1 / 4
      < 2 * ln (IZR (2 * (Z.of_nat (length (inorder (rebalance self))) + 1)))
        - 1)%R.
Proof.
  assert (Hmargin :
    (INR (height (rebalance self)) + 1 / 4
     < 2 * ln (IZR (2 * (Z.of_nat (length (inorder (rebalance self))) + 1)))
       - 1)%R).
  { assert (E : inorder (rebalance self) = inorder self)
      by (unfold rebalance, inorder; simpl; apply rb1_inorder).
    rewrite E. unfold height, rebalance. simpl _root.
    set (elems := inorder self).
    set (h := height1 (rb1 elems)).
    assert (Hpow : (2 ^ h <= length elems + 1)%nat).
    { destruct elems as [|x xs] eqn:Eel.
      - subst h. simp rb1. simpl. lia.
      - pose proof (rb1_height_pow (x :: xs) ltac:(discriminate)).
        subst h. lia. }
    clearbody h elems. clear E.
    assert (Harg : IZR (2 * (Z.of_nat (length elems) + 1))
                   = (2 * (INR (length elems) + 1))%R).
    { rewrite mult_IZR, plus_IZR, <- INR_IZR_INZ. reflexivity. }
    rewrite Harg.
    assert (HpowR : (2 ^ h <= INR (length elems) + 1)%R).
    { apply le_INR in Hpow. rewrite pow_INR, plus_INR in Hpow.
      simpl INR in Hpow. exact Hpow. }
    assert (Hpos : (0 < 2 ^ h)%R) by (apply pow_lt; lra).
    assert (Hln : (INR (S h) * ln 2 <= ln (2 * (INR (length elems) + 1)))%R).
    { rewrite <- ln_pow2.
      destruct (Rle_lt_or_eq_dec _ _ HpowR) as [Hlt|Heq].
      - left. apply ln_increasing; [apply pow_lt; lra|]. simpl. lra.
      - right. f_equal. simpl. lra. }
    rewrite S_INR in Hln.
    pose proof ln_2_lower as Hln2.
    pose proof (pos_INR h) as Hh.
    nra. }
  split; [|exact Hmargin].
  apply is_balanced_iff. lra.
Qed.

(** ** The counter and the nodes *)

(** X19. On every object obtained from [LinkedBST()] by [add], [remove],
    [replace], [rebalance] and [clear], the item count is the number of
    stored values, and [isEmpty()] holds exactly when nothing is
    stored. *)
Theorem reachable_len (self : LinkedBST) :
  reachable self ->
  len self = Z.of_nat (length (inorder self))
  /\ (isEmpty self = true <-> inorder self = []).
Proof.
  intros Hr. apply reachable_consistent in Hr.
  unfold len, inorder. rewrite inorder_length. split; [exact Hr|].
  rewrite (consistent_empty_iff _ Hr).
  destruct (_root self); simpl; split; intros H; try reflexivity;
    try discriminate.
  destruct (inorder_recurse t1); discriminate.
Qed.

(** ** Instances of the further properties *)

Lemma scenario_sorted : Sorted Z.le (inorder scenario).
Proof. simpl. repeat constructor; lia. Qed.

Lemma scenario_below_sentinel :
  Forall (fun x => x < sentinel) (inorder scenario).
Proof. repeat constructor. Qed.

Lemma scenario_above_sentinel :
  Forall (fun x => - sentinel < x) (inorder scenario).
Proof. repeat constructor. Qed.

(** X1 on the scenario tree: 6 is stored. *)
Lemma find_exact_witness :
  Sorted Z.le (inorder scenario)
  /\ (In 6 (inorder scenario) -> find scenario 6 = Some 6)
  /\ (~ In 6 (inorder scenario) -> find scenario 6 = None)
  /\ (contains scenario 6 = true <-> In 6 (inorder scenario)).
Proof.
  split; [exact scenario_sorted|].
  apply (find_exact scenario 6 scenario_sorted).
Defined.

(** X2 on the scenario tree: adding 7. *)
Lemma add_counts_and_stores_witness :
  consistent scenario
  /\ exists self', add scenario 7 = Ok self'
                   /\ len self' = len scenario + 1
                   /\ consistent self'
                   /\ Permutation (inorder self') (7 :: inorder scenario).
Proof.
  split; [reflexivity|]. apply (add_counts_and_stores scenario 7). reflexivity.
Defined.

(** X3 on the scenario tree: adding a second 5. *)
Lemma add_position_witness :
  consistent scenario
  /\ Sorted Z.le (inorder scenario)
  /\ exists self' before after,
       add scenario 5 = Ok self'
       /\ inorder scenario = before ++ after
       /\ inorder self' = before ++ 5 :: after
       /\ Forall (fun x => x <= 5) before
       /\ Forall (fun x => 5 < x) after
       /\ Sorted Z.le (inorder self').
Proof.
  split; [reflexivity|]. split; [exact scenario_sorted|].
  apply (add_position scenario 5); [reflexivity | exact scenario_sorted].
Defined.

(** X4 on the scenario tree: adding 7. *)
Lemma add_then_contains_witness :
  consistent scenario
  /\ Sorted Z.le (inorder scenario)
  /\ exists self', add scenario 7 = Ok self'
                   /\ find self' 7 = Some 7
                   /\ forall x, contains self' x = true
                                <-> x = 7 \/ contains scenario x = true.
Proof.
  split; [reflexivity|]. split; [exact scenario_sorted|].
  apply (add_then_contains scenario 7); [reflexivity | exact scenario_sorted].
Defined.

(** X6 on the scenario tree: removing the root value 5. *)
Lemma remove_present_witness :
  consistent scenario
  /\ contains scenario 5 = true
  /\ exists self' before after,
       remove scenario 5 = (Ok (Some 5), self')
       /\ inorder scenario = before ++ 5 :: after
       /\ inorder self' = before ++ after
       /\ len self' = len scenario - 1
       /\ consistent self'.
Proof.
  split; [reflexivity|]. split; [reflexivity|].
  apply (remove_present scenario 5); reflexivity.
Defined.

(** X7 on the scenario tree: removing 6. *)
Lemma remove_keeps_order_witness :
  consistent scenario
  /\ Sorted Z.le (inorder scenario)
  /\ Sorted Z.le (inorder (snd (remove scenario 6)))
  /\ forall x, x <> 6 ->
       count_occ Z.eq_dec (inorder (snd (remove scenario 6))) x
       = count_occ Z.eq_dec (inorder scenario) x.
Proof.
  split; [reflexivity|]. split; [exact scenario_sorted|].
  apply (remove_keeps_order scenario 6); [reflexivity | exact scenario_sorted].
Defined.

(** X8 on the scenario tree: replacing 8 by 9. *)
Lemma replace_overwrites_in_place_witness :
  find scenario 8 = Some 8
  /\ fst (replace scenario 8 9) = Some 8
  /\ exists before after,
       inorder scenario = before ++ 8 :: after
       /\ inorder (snd (replace scenario 8 9)) = before ++ 9 :: after.
Proof.
  destruct (replace_overwrites_in_place scenario 8 9)
    as (Hfst & _ & _ & Hfound).
  split; [reflexivity|]. split; [exact Hfst|].
  apply Hfound. reflexivity.
Defined.

(** X9 on the scenario tree: the successor of 5. *)
Lemma successor_sound_witness :
  consistent scenario
  /\ exists answer,
       successor scenario 5 = Ok answer
       /\ forall v, answer = Some v ->
            In v (inorder scenario) /\ 5 < v /\ v < sentinel
            /\ forall x, In x (inorder scenario) -> 5 < x -> v <= x.
Proof.
  split; [reflexivity|]. apply (successor_sound scenario 5). reflexivity.
Defined.

(** X10 on the scenario tree: the predecessor of 5. *)
Lemma predecessor_sound_witness :
  consistent scenario
  /\ exists answer,
       predecessor scenario 5 = Ok answer
       /\ forall v, answer = Some v ->
            In v (inorder scenario) /\ v < 5 /\ - sentinel < v
            /\ forall x, In x (inorder scenario) -> x < 5 -> x <= v.
Proof.
  split; [reflexivity|]. apply (predecessor_sound scenario 5). reflexivity.
Defined.

(** X11 on the scenario tree: the predecessor of 5. *)
Lemma predecessor_above_sentinel_witness :
  consistent scenario
  /\ Forall (fun x => - sentinel < x) (inorder scenario)
  /\ exists answer, predecessor scenario 5 = Ok answer
                    /\ predecessor_of (inorder scenario) 5 answer.
Proof.
  split; [reflexivity|]. split; [exact scenario_above_sentinel|].
  apply (predecessor_above_sentinel scenario 5);
    [reflexivity | exact scenario_above_sentinel].
Defined.

(** X12 on the scenario tree, whose root holds 5. *)
Lemma traversals_agree_witness :
  hd_error (preorder scenario) = Some 5 /\ last (postorder scenario) 0 = 5.
Proof.
  destruct (traversals_agree scenario) as (_ & _ & _ & Hroot).
  apply (Hroot _ 5 _ eq_refl).
Defined.

(** X15 on the scenario tree: the bounds 8 and 4 are crossed. *)
Lemma range_find_crossed_bounds_witness :
  4 < 8 /\ range_find scenario 8 4 = None.
Proof.
  split; [reflexivity|]. apply (range_find_crossed_bounds scenario 8 4).
  reflexivity.
Defined.

(** X16 on the scenario tree and the chain built from its values. *)
Lemma rebalance_idempotent_witness :
  inorder (mkBST (Node Empty 3 (Node Empty 4 (Node Empty 5 (Node Empty 6
             (Node Empty 8 (Node Empty 19 Empty)))))) 6)
  = inorder scenario
  /\ _root (rebalance (mkBST (Node Empty 3 (Node Empty 4 (Node Empty 5
              (Node Empty 6 (Node Empty 8 (Node Empty 19 Empty)))))) 6))
     = _root (rebalance scenario).
Proof.
  split; [reflexivity|].
  apply (proj2 (rebalance_idempotent scenario)). reflexivity.
Defined.

(** X17 on the scenario tree: 8 after rebalancing. *)
Lemma rebalance_then_contains_witness :
  Sorted Z.le (inorder scenario)
  /\ (contains (rebalance scenario) 8 = true <-> In 8 (inorder scenario)).
Proof.
  split; [exact scenario_sorted|].
  apply (rebalance_then_contains scenario 8 scenario_sorted).
Defined.

(** X19 on the scenario tree. *)
Lemma reachable_len_witness :
  reachable scenario
  /\ len scenario = Z.of_nat (length (inorder scenario))
  /\ (isEmpty scenario = true <-> inorder scenario = []).
Proof.
  split; [exact scenario_reachable|].
  apply (reachable_len scenario scenario_reachable).
Defined.

(** X20 on the scenario tree: the successor of 5. *)
Lemma successor_below_sentinel_witness :
  consistent scenario
  /\ Forall (fun x => x < sentinel) (inorder scenario)
  /\ exists answer, successor scenario 5 = Ok answer
                    /\ successor_of (inorder scenario) 5 answer.
Proof.
  split; [reflexivity|]. split; [exact scenario_below_sentinel|].
  apply (successor_below_sentinel scenario 5);
    [reflexivity | exact scenario_below_sentinel].
Defined.

(** ** String representation *)

Lemma append_assoc (a b c : String.string) :
  String.append (String.append a b) c = String.append a (String.append b c).
Proof.
  induction a as [|ch a IH]; simpl; [reflexivity|]. now rewrite IH.
Qed.

Lemma join_app (xs ys : list String.string) :
  Printing.join (xs ++ ys)
  = String.append (Printing.join xs) (Printing.join ys).
Proof.
  unfold Printing.join. induction xs as [|x xs IH]; simpl; [reflexivity|].
  now rewrite IH, append_assoc.
Qed.

Lemma recurse_rows (node : tree) (level : nat) :
  Printing.recurse node level
  = Printing.join (map Printing.render (Printing.rows node level)).
Proof.
  revert level. induction node as [|l IHl d r IHr]; intros level;
    [reflexivity|].
  simpl Printing.recurse. simpl Printing.rows.
  rewrite map_app, join_app, IHl, IHr. simpl map.
  change (Printing.join (Printing.render (level, d) :: ?rest))
    with (String.append (Printing.render (level, d)) (Printing.join rest)).
  unfold Printing.render. simpl fst. simpl snd.
  change (String.append String.EmptyString ?x) with x.
  rewrite !append_assoc. reflexivity.
Qed.

Lemma rows_values (node : tree) (level : nat) :
  map snd (Printing.rows node level) = rev (inorder_recurse node).
Proof.
  revert level. induction node as [|l IHl d r IHr]; intros level;
    [reflexivity|].
  simpl. rewrite map_app, rev_app_distr. simpl.
  rewrite IHl, IHr, <- app_assoc. reflexivity.
Qed.

Lemma rows_depths (node : tree) (level lvl : nat) (d : Z) :
  In (lvl, d) (Printing.rows node level) ->
  (level <= lvl)%nat /\ In d (at_depth node (lvl - level)).
Proof.
  revert level. induction node as [|l IHl x r IHr]; intros level Hin;
    [destruct Hin|].
  simpl in Hin. apply in_app_or in Hin.
  destruct Hin as [Hin|[[= <- <-]|Hin]].
  - apply IHr in Hin as [Hle Hin]. split; [lia|].
    replace (lvl - level)%nat with (S (lvl - S level)) by lia.
    simpl. apply in_or_app. now right.
  - split; [lia|]. rewrite Nat.sub_diag. now left.
  - apply IHl in Hin as [Hle Hin]. split; [lia|].
    replace (lvl - level)%nat with (S (lvl - S level)) by lia.
    simpl. apply in_or_app. now left.
Qed.

(** X21. [str(tree)] is one line per stored value, the values read from
    top to bottom being the inorder sequence reversed; each line is a
    stored value's decimal numeral preceded by one mark "| " per level of
    its depth and ended by a newline. *)
Theorem to_str_lines (self : LinkedBST) :
  Printing.to_str self
  = Printing.join (map Printing.render (Printing.rows (_root self) 0))
  /\ map snd (Printing.rows (_root self) 0) = rev (inorder self)
  /\ forall lvl d, In (lvl, d) (Printing.rows (_root self) 0) ->
       In d (at_depth (_root self) lvl).
Proof.
  split; [apply recurse_rows|]. split; [apply rows_values|].
  intros lvl d Hin. apply rows_depths in Hin as [_ Hin].
  now rewrite Nat.sub_0_r in Hin.
Qed.

(** X21 on the scenario tree: 6 is printed with one depth mark. *)
Lemma to_str_lines_witness :
  In (1%nat, 6) (Printing.rows (_root scenario) 0)
  /\ In 6 (at_depth (_root scenario) 1).
Proof.
  assert (Hrow : In (1%nat, 6) (Printing.rows (_root scenario) 0))
    by (simpl; tauto).
  split; [exact Hrow|].
  destruct (to_str_lines scenario) as (_ & _ & Hdepth).
  apply (Hdepth 1%nat 6%Z Hrow).
Defined.

(** ** Insertion and removal together *)

Lemma ascending_perm_eq (xs ys : list Z) :
  ascending xs -> ascending ys -> Permutation xs ys -> xs = ys.
Proof.
  revert ys. induction xs as [|a xs IH]; intros ys Hx Hy Hp.
  - apply Permutation_nil in Hp. now subst.
  - destruct ys as [|b ys].
    { apply Permutation_sym, Permutation_nil in Hp. discriminate. }
    apply ascending_cons in Hx as [Hx Ha].
    apply ascending_cons in Hy as [Hy Hb].
    assert (Hab : a = b).
    { assert (Hin1 : In a (b :: ys))
        by (apply (Permutation_in _ Hp); now left).
      assert (Hin2 : In b (a :: xs))
        by (apply (Permutation_in _ (Permutation_sym Hp)); now left).
      destruct Hin1 as [->|Hin1]; [reflexivity|].
      destruct Hin2 as [->|Hin2]; [reflexivity|].
      specialize (Ha _ Hin2). specialize (Hb _ Hin1). lia. }
    subst b. f_equal. apply IH; auto.
    now apply Permutation_cons_inv in Hp.
Qed.

(** X22. On a tree object whose inorder sequence is non-decreasing,
    [add(item)] followed by [remove(item)] returns the item and leaves the
    inorder sequence and the item count as they were before the two
    calls. *)
Theorem add_then_remove (self : LinkedBST) (item : Z) :
  consistent self ->
  Sorted Z.le (inorder self) ->
  exists self1 self2,
    add self item = Ok self1
    /\ remove self1 item = (Ok (Some item), self2)
    /\ inorder self2 = inorder self
    /\ len self2 = len self.
Proof.
  intros Hc Hs. apply ascending_Sorted in Hs.
  destruct (add_returns self item Hc) as [self1 Hadd].
  pose proof (add_consistent _ _ _ Hc Hadd) as Hc1.
  destruct (add_sorted_split _ _ _ Hc Hs Hadd)
    as (before & after & E & E1 & Hs1).
  assert (Hin : contains self1 item = true).
  { apply (contains_iff_stored _ _ Hs1). rewrite E1.
    apply in_or_app. right. now left. }
  destruct (remove_outcome self1 item Hc1) as [[Hno _]|[_ Hyes]];
    [congruence|].
  destruct Hyes as (self2 & before' & after' & Hrem & E1' & E2 & Hsize).
  exists self1, self2. repeat split; auto.
  - rewrite E2, E. symmetry. apply ascending_perm_eq.
    + now rewrite <- E.
    + apply (ascending_delete item). now rewrite <- E1'.
    + apply (Permutation_app_inv _ _ _ _ item). now rewrite <- E1, <- E1'.
  - unfold len. rewrite Hsize. unfold consistent in Hc, Hc1.
    rewrite Hc, Hc1, <- !inorder_length.
    fold (inorder self1). fold (inorder self). rewrite E1, E.
    rewrite !length_app. simpl. lia.
Qed.

(** X22 on the scenario tree: adding and removing 7. *)
Lemma add_then_remove_witness :
  consistent scenario
  /\ Sorted Z.le (inorder scenario)
  /\ exists self1 self2,
       add scenario 7 = Ok self1
       /\ remove self1 7 = (Ok (Some 7), self2)
       /\ inorder self2 = inorder scenario
       /\ len self2 = len scenario.
Proof.
  split; [reflexivity|]. split; [exact scenario_sorted|].
  apply (add_then_remove scenario 7); [reflexivity | exact scenario_sorted].
Defined.

(** X23. On a tree object whose inorder sequence is non-decreasing, after
    a successful [remove(item)] the item is still found exactly when it
    was stored at least twice; an item stored once is gone. *)
Theorem remove_then_contains (self : LinkedBST) (item : Z) :
  consistent self ->
  Sorted Z.le (inorder self) ->
  contains self item = true ->
  (contains (snd (remove self item)) item = true
   <-> (2 <= count_occ Z.eq_dec (inorder self) item)%nat).
Proof.
  intros Hc Hs Hin. apply ascending_Sorted in Hs.
  destruct (remove_outcome self item Hc) as [[Hno _]|[_ Hyes]];
    [congruence|].
  destruct Hyes as (self' & before & after & -> & E & E' & _). simpl.
  assert (Hs' : ascending (inorder self')).
  { rewrite E'. apply (ascending_delete item). now rewrite <- E. }
  rewrite (contains_iff_stored _ _ Hs').
  rewrite (count_occ_In Z.eq_dec), E, E', !count_occ_app. simpl.
  destruct (Z.eq_dec item item); [|congruence]. lia.
Qed.

(** X23 on the scenario tree: 6 is stored once. *)
Lemma remove_then_contains_witness :
  consistent scenario
  /\ Sorted Z.le (inorder scenario)
  /\ contains scenario 6 = true
  /\ (contains (snd (remove scenario 6)) 6 = true
      <-> (2 <= count_occ Z.eq_dec (inorder scenario) 6%Z)%nat).
Proof.
  split; [reflexivity|]. split; [exact scenario_sorted|].
  split; [reflexivity|].
  apply (remove_then_contains scenario 6);
    [reflexivity | exact scenario_sorted | reflexivity].
Defined.
